(** * Mutation-Simulator: [mutation_simulator/util.py]

    A shallow embedding of the three functions of [util.py] that carry
    behaviour worth stating: [load_fasta], [sample_with_minimum_distance]
    and [pairwise].

    Python integers are unbounded, so they are [Z]; list positions (the
    values of [range(len(sampl))]) are [nat].  Exceptions are an explicit
    [result] type.  The two library calls the module relies on are modelled
    by their documented contracts, with the part decided outside the program
    (the generator's choice, the parser's outcome) taken as an argument:

    - [random.sample(population, k)] raises [ValueError] unless
      [0 <= k <= len(population)], and otherwise returns the elements found
      at [k] different positions of the population, in the order chosen;
    - [pyfaidx.Fasta(...)] either returns a Fasta object or raises. *)

From Stdlib Require Import String.
From Stdlib Require Import ZArith List Lia Bool Permutation Sorted.
From Stdlib Require Import FinFun Ascii.
From Stdlib.Strings Require Import Byte.
From Equations Require Import Equations.
Import ListNotations.

Local Open Scope Z_scope.

(** ** Exceptions and results *)

(** The exceptions this module can let escape.  [ValueError] stands for any
    instance of Python's [ValueError] (the class an [except ValueError]
    clause catches), [OtherException] for an exception of any class that is
    not a [ValueError]. *)
Inductive exception : Type :=
| ValueError
| FastaDuplicateHeaderError (msg : string)
| OtherException (cls : string).

Inductive result (A : Type) : Type :=
| Ok (a : A)
| Raise (e : exception).

Arguments Ok {A} a.
Arguments Raise {A} e.

Definition bind {A B : Type} (c : result A) (f : A -> result B) : result B :=
  match c with
  | Ok a => f a
  | Raise e => Raise e
  end.

Notation "x <- c ;; k" := (bind c (fun x => k))
  (at level 61, c at next level, right associativity).

(** ** Python built-ins used by the module *)

Definition len {A : Type} (l : list A) : Z := Z.of_nat (length l).

(** [range(start, stop)]: empty when [stop <= start]. *)
Definition range (start stop : Z) : list Z :=
  map (fun i => start + Z.of_nat i) (seq 0 (Z.to_nat (stop - start))).

(** [sorted(l, key=key)].  Python's sort is stable, and a stable sort has
    one possible result, so it is modelled by stable insertion: an element
    goes in front of the first later element whose key is not smaller. *)
Fixpoint insert_by {A : Type} (key : A -> Z) (x : A) (l : list A) : list A :=
  match l with
  | [] => [x]
  | y :: t => if key x <=? key y then x :: y :: t else y :: insert_by key x t
  end.

Definition sorted {A : Type} (key : A -> Z) (l : list A) : list A :=
  fold_right (insert_by key) [] l.

(** [sorted(l)] on integers. *)
Definition sorted_int (l : list Z) : list Z := sorted (fun x => x) l.

(** [random.sample(population, k)].  [picks] is the generator's choice: the
    positions of the population it selects, in selection order.  The size
    check comes first and does not look at the generator. *)
Definition sample (population : list Z) (k : Z) (picks : list nat)
  : result (list Z) :=
  if (0 <=? k) && (k <=? len population)
  then Ok (map (fun j => nth j population 0) picks)
  else Raise ValueError.

(** What the library promises about the generator's choice: [k] positions
    of a population of [size] elements, no position twice. *)
Definition fair_picks (size : nat) (k : Z) (picks : list nat) : Prop :=
  len picks = k /\ NoDup picks /\ Forall (fun j => (j < size)%nat) picks.

(** ** [sample_with_minimum_distance] *)

Definition sample_with_minimum_distance (n k d : Z) (picks : list nat)
  : result (list Z) :=
  sampl <- sample (range 1 (n - (k - 1) * d)) k picks ;;
  let indices :=
    sorted (fun i => nth i sampl 0) (seq 0 (length sampl)) in
  Ok (map (fun '(s, r) => s + d * Z.of_nat r)
          (combine sampl
                   (sorted (fun i => Z.of_nat (nth i indices 0%nat)) indices))).

(** ** [pairwise] *)

(** [tee] gives two independent iterators over the same elements; an
    iterator over a list is the list of what is left to produce. *)
Definition tee {A : Type} (iterable : list A) : list A * list A :=
  (iterable, iterable).

(** [next(it, None)] for its effect on the iterator only: one element is
    consumed if there is one, and an exhausted iterator is left as it is. *)
Definition next_default {A : Type} (it : list A) : list A :=
  match it with
  | [] => []
  | _ :: rest => rest
  end.

Definition pairwise {A : Type} (iterable : list A) : list (A * A) :=
  let '(a, b) := tee iterable in
  let b := next_default b in
  combine a b.

(** ** [load_fasta] *)

(** [Fasta(str(fname.resolve()), ...)] seen from the caller: the parser's
    outcome is given, it is not computed here. *)
Definition load_fasta {Fasta : Type} (fname : string)
  (parser : result Fasta) : result Fasta :=
  match parser with
  | Ok fasta => Ok fasta
  | Raise ValueError =>
      Raise (FastaDuplicateHeaderError
               ("Fasta " ++ fname ++ " contains duplicate header")%string)
  | Raise e => Raise e
  end.

(** ** Notions the statements use *)

(** The 0-based ascending rank of [x] among the values of [l]: how many of
    them are smaller. *)
Definition rank (l : list Z) (x : Z) : nat :=
  length (filter (fun y => y <? x) l).

(** The parameters the specification calls valid. *)
Definition valid (n k d : Z) : Prop :=
  0 < n /\ 0 <= k /\ 0 <= d /\ k + 1 <= n - (k - 1) * d.

(** Every adjacent pair of [l] is at least [g] apart, in list order. *)
Definition gaps_ge (g : Z) (l : list Z) : Prop :=
  Forall (fun p => g <= snd p - fst p) (pairwise l).

(** The expansion of step 4 on an ascending list: the value at rank [r]
    moves right by [d * r]. *)
Fixpoint expand_from (d : Z) (r : nat) (l : list Z) : list Z :=
  match l with
  | [] => []
  | s :: t => s + d * Z.of_nat r :: expand_from d (S r) t
  end.

Definition expand (d : Z) (l : list Z) : list Z := expand_from d 0 l.

(** Its inverse: the value at rank [r] moves left by [d * r]. *)
Definition compress (d : Z) (l : list Z) : list Z := expand (- d) l.

(** A [k]-subset of [[1, bound)] whose neighbours are at least [g] apart,
    as its ascending list. *)
Definition spaced_subset (g bound k : Z) (l : list Z) : Prop :=
  len l = k /\ Forall (fun v => 1 <= v < bound) l /\ gaps_ge g l.

(** A fair choice of the generator for the call
    [sample_with_minimum_distance(n, k, d)]. *)
Definition fair_draw (n k d : Z) (picks : list nat) : Prop :=
  fair_picks (length (range 1 (n - (k - 1) * d))) k picks.

(** What [random.sample(range(1, m), k)] returns for the choice [picks]. *)
Definition drawn (m : Z) (picks : list nat) : list Z :=
  map (fun j => nth j (range 1 m) 0) picks.

(** The two local lists of [sample_with_minimum_distance], by name. *)
Definition indices_of (sampl : list Z) : list nat :=
  sorted (fun i => nth i sampl 0) (seq 0 (length sampl)).

Definition ranks_of (sampl : list Z) : list nat :=
  sorted (fun i => Z.of_nat (nth i (indices_of sampl) 0%nat)) (indices_of sampl).

(** The sample read through [indices]: the sample in ascending order. *)
Definition ascending_sample (sampl : list Z) : list Z :=
  map (fun i => nth i sampl 0) (indices_of sampl).

(** The value [s] of the sample moved right by [d] times its rank. *)
Definition shift (d : Z) (sampl : list Z) (s : Z) : Z :=
  s + d * Z.of_nat (rank sampl s).

(** The order a sort by [key] produces. *)
Definition key_le {A : Type} (key : A -> Z) (a b : A) : Prop :=
  key a <= key b.

(** [FastaDuplicateHeaderError] is a class of this module: the parsing
    library cannot raise it. *)
Definition from_library {A : Type} (outcome : result A) : Prop :=
  match outcome with
  | Raise (FastaDuplicateHeaderError _) => False
  | _ => True
  end.

(** ** Messages on the terminal *)

(** The class [Colors] of [colors.py]: the escape sequences the messages are
    wrapped in.  Only its four attributes are used here; their values are
    left open. *)
Record Colors : Type := {
  Colors_error : string;
  Colors_warn : string;
  Colors_ok : string;
  Colors_norm : string
}.

(** The two streams [print] writes to, each as the text written so far. *)
Record console : Type := {
  stdout : string;
  stderr : string
}.

Definition newline : string := String (ascii_of_nat 10) EmptyString.

(** [print(text)] and [print(text, file=stderr)]. *)
Definition print (text : string) (c : console) : console :=
  {| stdout := stdout c ++ text ++ newline; stderr := stderr c |}.

Definition print_stderr (text : string) (c : console) : console :=
  {| stdout := stdout c; stderr := stderr c ++ text ++ newline |}.

(** How a call that ends the process ends it: [exit(status)]. *)
Inductive exited : Type :=
| Exit (status : Z).

(** [exit_with_error(e, no_color)]; [e] is the text [str(e)] of the
    exception. *)
Definition exit_with_error (colors : Colors) (e : string) (no_color : bool)
  (c : console) : console * exited :=
  let message := ("ERROR: " ++ e)%string in
  let c :=
    if no_color
    then print_stderr message c
    else print_stderr (Colors_error colors ++ message ++ Colors_norm colors) c in
  (c, Exit 1).

Definition format_warning (colors : Colors) (msg : string) (no_color : bool)
  : string :=
  let message := ("WARNING: " ++ msg)%string in
  if no_color
  then message
  else (Colors_warn colors ++ message ++ Colors_norm colors)%string.

Definition print_warning (colors : Colors) (msg : string) (no_color : bool)
  (c : console) : console :=
  print_stderr (format_warning colors msg no_color) c.

Definition print_success (colors : Colors) (msg : string) (no_color : bool)
  (c : console) : console :=
  if no_color
  then print msg c
  else print (Colors_ok colors ++ msg ++ Colors_norm colors) c.

(** ** [get_md5] *)

(** [f.read(size)] on a file opened in binary mode: the next [size] bytes,
    fewer at the end of the file, none once it is reached; the file is the
    bytes not read yet. *)
Definition read (size : nat) (f : list byte) : list byte * list byte :=
  (firstn size f, skipn size f).

Definition inspect {A : Type} (a : A) : {b : A | a = b} :=
  exist _ a eq_refl.

(** [iter(lambda: f.read(size), b"")]: the chunks read until a read returns
    the empty bytes object, which is not produced. *)
Equations? iter_read (size : nat) (f : list byte) : list (list byte)
  by wf (length f) lt :=
  iter_read size f with inspect (read size f) := {
    | exist _ ([], _) _ => []
    | exist _ (b :: chunk, rest) e => (b :: chunk) :: iter_read size rest }.
Proof.
  destruct size as [|size']; [discriminate|].
  destruct f as [|b' f']; [discriminate|].
  rewrite length_skipn. simpl. lia.
Qed.

(** The [hashlib] object is left open: a new hash object, its [update] and
    its [hexdigest].  [opened] is what [open(fname, "rb")] gives: the bytes
    of the file, or the exception it raises. *)
Definition get_md5 {hasher : Type} (md5 : hasher)
  (update : hasher -> list byte -> hasher) (hexdigest : hasher -> string)
  (opened : result (list byte)) : result string :=
  f <- opened ;;
  let hash_md5 := fold_left update (iter_read 4096 f) md5 in
  Ok (hexdigest hash_md5).

(** The sum of a list of integers. *)
Definition total (l : list Z) : Z := fold_right Z.add 0 l.

(** * Facts about the built-ins *)

Lemma len_map {A B : Type} (f : A -> B) (l : list A) : len (map f l) = len l.
Proof. unfold len. now rewrite length_map. Qed.

Lemma range_length (start stop : Z) :
  length (range start stop) = Z.to_nat (stop - start).
Proof. unfold range. now rewrite length_map, length_seq. Qed.

Lemma len_range (start stop : Z) :
  len (range start stop) = Z.max 0 (stop - start).
Proof. unfold len. rewrite range_length. lia. Qed.

Lemma range_nth (start stop : Z) (j : nat) :
  (j < Z.to_nat (stop - start))%nat ->
  nth j (range start stop) 0 = start + Z.of_nat j.
Proof.
  intros Hj. unfold range.
  rewrite nth_indep with (d' := start + Z.of_nat 0)
    by now rewrite length_map, length_seq.
  rewrite map_nth with (f := fun i => start + Z.of_nat i).
  now rewrite seq_nth.
Qed.

Lemma map_nth_seq (l : list Z) :
  map (fun i => nth i l 0) (seq 0 (length l)) = l.
Proof.
  apply nth_ext with (d := 0) (d' := 0).
  - now rewrite length_map, length_seq.
  - intros i Hi. rewrite length_map, length_seq in Hi.
    rewrite nth_indep with (d' := nth 0%nat l 0)
      by now rewrite length_map, length_seq.
    rewrite map_nth with (f := fun i => nth i l 0).
    now rewrite seq_nth.
Qed.

Lemma map_nth_seq_nat (l : list nat) :
  map (fun i => nth i l 0%nat) (seq 0 (length l)) = l.
Proof.
  apply nth_ext with (d := 0%nat) (d' := 0%nat).
  - now rewrite length_map, length_seq.
  - intros i Hi. rewrite length_map, length_seq in Hi.
    rewrite nth_indep with (d' := nth 0%nat l 0%nat)
      by now rewrite length_map, length_seq.
    rewrite map_nth with (f := fun i => nth i l 0%nat).
    now rewrite seq_nth.
Qed.

(** ** The sort: a permutation of its input, ascending in the key *)

Section Sorting.
Context {A : Type} (key : A -> Z).

Lemma insert_by_perm (x : A) (l : list A) :
  Permutation (insert_by key x l) (x :: l).
Proof.
  induction l as [|y t IH]; simpl.
  - reflexivity.
  - destruct (key x <=? key y).
    + reflexivity.
    + rewrite IH. apply perm_swap.
Qed.

Lemma sorted_perm (l : list A) : Permutation (sorted key l) l.
Proof.
  induction l as [|x t IH]; simpl.
  - constructor.
  - rewrite insert_by_perm. now constructor.
Qed.

Lemma sorted_length (l : list A) : length (sorted key l) = length l.
Proof. apply Permutation_length, sorted_perm. Qed.

Lemma insert_by_sorted (x : A) (l : list A) :
  StronglySorted (key_le key) l -> StronglySorted (key_le key) (insert_by key x l).
Proof.
  induction 1 as [|y t Hs IH Hy]; simpl.
  - repeat constructor.
  - destruct (Z.leb_spec (key x) (key y)) as [Hle|Hgt].
    + constructor; [now constructor|].
      constructor; [exact Hle|].
      eapply Forall_impl; [|exact Hy].
      intros z Hz. unfold key_le in *. lia.
    + constructor; [exact IH|].
      apply (Permutation_Forall (Permutation_sym (insert_by_perm x t))).
      constructor; [unfold key_le; lia | exact Hy].
Qed.

Lemma sorted_ascending (l : list A) : StronglySorted (key_le key) (sorted key l).
Proof.
  induction l as [|x t IH]; simpl.
  - constructor.
  - now apply insert_by_sorted.
Qed.

Lemma sorted_keys_ascending (l : list A) :
  StronglySorted Z.le (map key (sorted key l)).
Proof.
  generalize (sorted_ascending l).
  induction 1 as [|y t Hs IH Hy]; simpl; constructor; auto.
  rewrite Forall_map. exact Hy.
Qed.
End Sorting.

(** Two ascending lists with the same elements are the same list. *)
Lemma ascending_unique (l1 l2 : list Z) :
  StronglySorted Z.le l1 -> StronglySorted Z.le l2 ->
  Permutation l1 l2 -> l1 = l2.
Proof.
  intros H1; revert l2.
  induction H1 as [|a t Hs IH Ha]; intros l2 H2 Hp.
  - apply Permutation_nil in Hp. now subst.
  - destruct H2 as [|b u Hu Hb].
    + apply Permutation_sym, Permutation_nil in Hp. discriminate.
    + assert (a = b) as ->.
      { assert (In a (b :: u)) as Hab
          by (eapply Permutation_in; [exact Hp | now left]).
        assert (In b (a :: t)) as Hba
          by (eapply Permutation_in; [symmetry; exact Hp | now left]).
        rewrite Forall_forall in Ha, Hb.
        destruct Hab as [->|Hab]; [reflexivity|].
        destruct Hba as [->|Hba]; [reflexivity|].
        specialize (Ha _ Hba). specialize (Hb _ Hab). lia. }
      f_equal. apply IH; [exact Hu|].
      eapply Permutation_cons_inv; exact Hp.
Qed.

Lemma sorted_int_perm (l : list Z) : Permutation (sorted_int l) l.
Proof. apply sorted_perm. Qed.

Lemma sorted_int_ascending (l : list Z) : StronglySorted Z.le (sorted_int l).
Proof.
  unfold sorted_int.
  rewrite <- (map_id (sorted (fun x => x) l)).
  apply (sorted_keys_ascending (fun x : Z => x)).
Qed.

(** [sorted] is determined by those two properties. *)
Lemma sorted_int_char (l s : list Z) :
  StronglySorted Z.le s -> Permutation s l -> sorted_int l = s.
Proof.
  intros Hs Hp. apply ascending_unique.
  - apply sorted_int_ascending.
  - exact Hs.
  - rewrite sorted_int_perm. now symmetry.
Qed.

Lemma nth_map_in {A B : Type} (f : A -> B) (l : list A) (j : nat) (a : A) (b : B) :
  (j < length l)%nat -> nth j (map f l) b = f (nth j l a).
Proof.
  intros Hj. rewrite nth_indep with (d' := f a) by now rewrite length_map.
  apply map_nth.
Qed.

Lemma ascending_distinct_strict (l : list Z) :
  StronglySorted Z.le l -> NoDup l -> StronglySorted Z.lt l.
Proof.
  induction 1 as [|a t Hs IH Ha]; intros Hnd; constructor.
  - apply IH. now inversion Hnd.
  - inversion Hnd as [|? ? Hnotin _]; subst.
    rewrite Forall_forall in *. intros y Hy.
    specialize (Ha y Hy).
    assert (a <> y) by (intros ->; contradiction). lia.
Qed.


Lemma strict_distinct (l : list Z) : StronglySorted Z.lt l -> NoDup l.
Proof.
  induction 1 as [|a t Hs IH Ha]; constructor; auto.
  rewrite Forall_forall in Ha. intros Hin. specialize (Ha _ Hin). lia.
Qed.

Lemma seq_ascending (start count : nat) :
  StronglySorted Z.le (map Z.of_nat (seq start count)).
Proof.
  revert start. induction count as [|c IH]; intros start; simpl; constructor.
  - apply IH.
  - rewrite Forall_map, Forall_forall. intros j Hj.
    apply in_seq in Hj. lia.
Qed.

Lemma map_of_nat_inj (l1 l2 : list nat) :
  map Z.of_nat l1 = map Z.of_nat l2 -> l1 = l2.
Proof.
  revert l2. induction l1 as [|a t IH]; intros [|b u]; simpl; try discriminate.
  - reflexivity.
  - intros H. injection H as Hab Htu. f_equal; [lia | now apply IH].
Qed.

(** ** Ranks *)

Lemma rank_cons (a : Z) (l : list Z) (x : Z) :
  rank (a :: l) x = ((if (a <? x)%Z then 1 else 0) + rank l x)%nat.
Proof. unfold rank. simpl. now destruct (a <? x). Qed.

Lemma rank_perm (l l' : list Z) (x : Z) :
  Permutation l l' -> rank l x = rank l' x.
Proof.
  induction 1 as [| a l l' _ IH | a b l | l l' l'' _ IH1 _ IH2].
  - reflexivity.
  - rewrite !rank_cons. now rewrite IH.
  - rewrite !rank_cons. lia.
  - congruence.
Qed.

Lemma rank_le_length (l : list Z) (x : Z) : (rank l x <= length l)%nat.
Proof. apply filter_length_le. Qed.

Lemma rank_mono (l : list Z) (x y : Z) :
  x <= y -> (rank l x <= rank l y)%nat.
Proof.
  intros Hxy. induction l as [|a t IH].
  - reflexivity.
  - rewrite !rank_cons.
    destruct (Z.ltb_spec a x), (Z.ltb_spec a y); lia.
Qed.

Lemma rank_strict (l : list Z) (x y : Z) :
  In x l -> x < y -> (rank l x < rank l y)%nat.
Proof.
  intros Hin Hxy. induction l as [|a t IH].
  - destruct Hin.
  - rewrite !rank_cons. destruct Hin as [->|Hin].
    + pose proof (rank_mono t x y ltac:(lia)).
      destruct (Z.ltb_spec x x), (Z.ltb_spec x y); lia.
    + specialize (IH Hin).
      destruct (Z.ltb_spec a x), (Z.ltb_spec a y); lia.
Qed.

Lemma rank_below_all (l : list Z) (x : Z) :
  Forall (fun y => x <= y) l -> rank l x = 0%nat.
Proof.
  induction 1 as [|a t Ha _ IH].
  - reflexivity.
  - rewrite rank_cons, IH. destruct (Z.ltb_spec a x); lia.
Qed.

(** In a strictly ascending list the rank of a value is its position. *)
Lemma rank_of_position (s : list Z) (r : nat) :
  StronglySorted Z.lt s -> (r < length s)%nat -> rank s (nth r s 0) = r.
Proof.
  intros Hs. revert r.
  induction Hs as [|a t Hs IH Ha]; intros r Hr; simpl in Hr.
  - lia.
  - rewrite rank_cons. destruct r as [|r']; simpl.
    + rewrite rank_below_all.
      * destruct (Z.ltb_spec a a); lia.
      * eapply Forall_impl; [|exact Ha]. intros; lia.
    + rewrite IH by lia.
      rewrite Forall_forall in Ha.
      specialize (Ha (nth r' t 0) ltac:(apply nth_In; lia)).
      destruct (Z.ltb_spec a (nth r' t 0)); lia.
Qed.

(** ** The two sorts of [sample_with_minimum_distance] compute the ranks *)

Section Ranks.
Variable sampl : list Z.
Hypothesis sampl_distinct : NoDup sampl.

Lemma indices_perm : Permutation (indices_of sampl) (seq 0 (length sampl)).
Proof. apply sorted_perm. Qed.

Lemma indices_length : length (indices_of sampl) = length sampl.
Proof. unfold indices_of. now rewrite sorted_length, length_seq. Qed.

(** Every [sampl[i]] and [indices[i]] the key functions evaluate is in
    range: no [IndexError] can arise. *)
Lemma indices_in_range :
  Forall (fun i => (i < length sampl)%nat) (indices_of sampl).
Proof.
  apply (Permutation_Forall (Permutation_sym indices_perm)).
  apply Forall_forall. intros i Hi. apply in_seq in Hi. lia.
Qed.

Lemma ranks_perm : Permutation (ranks_of sampl) (seq 0 (length sampl)).
Proof.
  unfold ranks_of. rewrite sorted_perm. apply indices_perm.
Qed.

Lemma ranks_length : length (ranks_of sampl) = length sampl.
Proof. rewrite (Permutation_length ranks_perm). apply length_seq. Qed.

Lemma ranks_in_range :
  Forall (fun i => (i < length sampl)%nat) (ranks_of sampl).
Proof.
  apply (Permutation_Forall (Permutation_sym ranks_perm)).
  apply Forall_forall. intros i Hi. apply in_seq in Hi. lia.
Qed.

Lemma ascending_sample_perm : Permutation (ascending_sample sampl) sampl.
Proof.
  unfold ascending_sample. rewrite indices_perm. now rewrite map_nth_seq.
Qed.

Lemma ascending_sample_strict : StronglySorted Z.lt (ascending_sample sampl).
Proof using sampl_distinct.
  apply ascending_distinct_strict.
  - apply (sorted_keys_ascending (fun i => nth i sampl 0)).
  - apply (Permutation_NoDup (Permutation_sym ascending_sample_perm)).
    exact sampl_distinct.
Qed.

(** [ranks] is the inverse permutation of [indices]. *)
Lemma indices_at_ranks :
  map (fun i => nth i (indices_of sampl) 0%nat) (ranks_of sampl)
  = seq 0 (length sampl).
Proof.
  apply map_of_nat_inj. rewrite map_map.
  apply ascending_unique.
  - apply (sorted_keys_ascending
             (fun i => Z.of_nat (nth i (indices_of sampl) 0%nat))).
  - apply seq_ascending.
  - unfold ranks_of. rewrite sorted_perm.
    rewrite <- map_map. apply Permutation_map.
    transitivity
      (map (fun i => nth i (indices_of sampl) 0%nat) (seq 0 (length sampl))).
    + apply Permutation_map, indices_perm.
    + rewrite <- indices_length, map_nth_seq_nat.
      rewrite indices_length. apply indices_perm.
Qed.

Lemma ranks_are_ranks : ranks_of sampl = map (rank sampl) sampl.
Proof using sampl_distinct.
  apply nth_ext with (d := 0%nat) (d' := 0%nat).
  - now rewrite ranks_length, length_map.
  - intros j Hj. rewrite ranks_length in Hj.
    rewrite (nth_map_in (rank sampl) sampl j 0) by exact Hj.
    set (r := nth j (ranks_of sampl) 0%nat).
    assert (Hr : (r < length sampl)%nat).
    { pose proof ranks_in_range as H. rewrite Forall_forall in H.
      apply H, nth_In. now rewrite ranks_length. }
    assert (Hinv : nth r (indices_of sampl) 0%nat = j).
    { pose proof (f_equal (fun l => nth j l 0%nat) indices_at_ranks) as H.
      simpl in H.
      rewrite (nth_map_in _ (ranks_of sampl) j 0%nat) in H
        by now rewrite ranks_length.
      now rewrite seq_nth in H. }
    assert (Hval : nth j sampl 0 = nth r (ascending_sample sampl) 0).
    { unfold ascending_sample.
      rewrite (nth_map_in _ (indices_of sampl) r 0%nat)
        by now rewrite indices_length.
      now rewrite Hinv. }
    rewrite Hval, (rank_perm _ _ _ (Permutation_sym ascending_sample_perm)).
    rewrite rank_of_position; [reflexivity | apply ascending_sample_strict |].
    now rewrite (Permutation_length ascending_sample_perm).
Qed.
End Ranks.

Lemma rank_lt_length (l : list Z) (x : Z) :
  In x l -> (rank l x < length l)%nat.
Proof.
  induction l as [|a t IH]; intros Hin.
  - destruct Hin.
  - rewrite rank_cons. simpl. destruct Hin as [->|Hin].
    + pose proof (rank_le_length t x).
      destruct (Z.ltb_spec x x); lia.
    + specialize (IH Hin). destruct (a <? x); lia.
Qed.

(** ** Adjacent gaps and the expansion *)

Lemma pairwise_cons2 {A : Type} (a b : A) (t : list A) :
  pairwise (a :: b :: t) = (a, b) :: pairwise (b :: t).
Proof. reflexivity. Qed.

Lemma gaps_ge_cons2 (g a b : Z) (t : list Z) :
  gaps_ge g (a :: b :: t) <-> g <= b - a /\ gaps_ge g (b :: t).
Proof.
  unfold gaps_ge. rewrite pairwise_cons2. split.
  - intros H. inversion H; subst. auto.
  - intros [H1 H2]. now constructor.
Qed.

Lemma gaps_ge_nil (g : Z) : gaps_ge g [].
Proof. constructor. Qed.

Lemma gaps_ge_one (g a : Z) : gaps_ge g [a].
Proof. constructor. Qed.

Create HintDb gaps.
#[local] Hint Resolve gaps_ge_nil gaps_ge_one : gaps.

Lemma gaps_ge_weaken (g g' : Z) (l : list Z) :
  g' <= g -> gaps_ge g l -> gaps_ge g' l.
Proof.
  intros Hg H. unfold gaps_ge in *.
  eapply Forall_impl; [|exact H]. intros p Hp. simpl in Hp. lia.
Qed.

Lemma gaps_ge_tail (g a : Z) (t : list Z) :
  gaps_ge g (a :: t) -> gaps_ge g t.
Proof.
  destruct t as [|b u]; auto with gaps.
  rewrite gaps_ge_cons2. tauto.
Qed.

Lemma gaps_ge_forall (g a : Z) (t : list Z) :
  0 <= g -> gaps_ge g (a :: t) -> Forall (fun y => g <= y - a) t.
Proof.
  intros Hg. revert a. induction t as [|b u IH]; intros a H.
  - constructor.
  - apply gaps_ge_cons2 in H as [Hab Hbu].
    constructor; [exact Hab|].
    eapply Forall_impl; [|apply IH; exact Hbu].
    intros y Hy. simpl in Hy. lia.
Qed.

Lemma gaps_strict (l : list Z) : gaps_ge 1 l -> StronglySorted Z.lt l.
Proof.
  induction l as [|a t IH]; intros H; constructor.
  - apply IH. eapply gaps_ge_tail; exact H.
  - eapply Forall_impl; [|apply (gaps_ge_forall 1 a t); [lia | exact H]].
    intros y Hy. simpl in Hy. lia.
Qed.

Lemma gaps_ascending (g : Z) (l : list Z) :
  0 <= g -> gaps_ge g l -> StronglySorted Z.le l.
Proof.
  intros Hg. induction l as [|a t IH]; intros H; constructor.
  - apply IH. eapply gaps_ge_tail; exact H.
  - eapply Forall_impl; [|apply (gaps_ge_forall g a t); [lia | exact H]].
    intros y Hy. simpl in Hy. lia.
Qed.

Lemma strict_gaps (l : list Z) : StronglySorted Z.lt l -> gaps_ge 1 l.
Proof.
  induction 1 as [|a t Hs IH Ha]; auto with gaps.
  destruct t as [|b u]; auto with gaps.
  apply gaps_ge_cons2. split; [|exact IH].
  inversion Ha; subst. lia.
Qed.

Lemma expand_from_length (d : Z) (r : nat) (l : list Z) :
  length (expand_from d r l) = length l.
Proof.
  revert r. induction l as [|a t IH]; intros r; simpl; [|rewrite IH]; reflexivity.
Qed.

Lemma expand_from_nth (d : Z) (r0 r : nat) (l : list Z) :
  (r < length l)%nat ->
  nth r (expand_from d r0 l) 0 = nth r l 0 + d * Z.of_nat (r0 + r).
Proof.
  revert r0 r. induction l as [|a t IH]; intros r0 r Hr; simpl in Hr.
  - lia.
  - destruct r as [|r']; simpl.
    + now rewrite Nat.add_0_r.
    + rewrite IH by lia. do 3 f_equal. lia.
Qed.

Lemma expand_from_gaps (d g : Z) (r : nat) (l : list Z) :
  gaps_ge g l -> gaps_ge (g + d) (expand_from d r l).
Proof.
  revert r. induction l as [|a t IH]; intros r H; simpl; auto with gaps.
  destruct t as [|b u]; simpl; auto with gaps.
  apply gaps_ge_cons2 in H as [Hab Hbu].
  apply gaps_ge_cons2. split; [lia|].
  apply (IH (S r) Hbu).
Qed.

Lemma expand_from_inverse (d : Z) (r : nat) (l : list Z) :
  expand_from d r (expand_from (- d) r l) = l.
Proof.
  revert r. induction l as [|a t IH]; intros r; simpl.
  - reflexivity.
  - rewrite IH. f_equal. lia.
Qed.

Lemma expand_compress (d : Z) (l : list Z) : expand d (compress d l) = l.
Proof. apply expand_from_inverse. Qed.

Lemma compress_expand (d : Z) (l : list Z) : compress d (expand d l) = l.
Proof.
  unfold compress, expand.
  rewrite <- (Z.opp_involutive d) at 2. apply expand_from_inverse.
Qed.

Lemma expand_len (d : Z) (l : list Z) : len (expand d l) = len l.
Proof. unfold len, expand. now rewrite expand_from_length. Qed.

Lemma expand_nth (d : Z) (r : nat) (l : list Z) :
  (r < length l)%nat -> nth r (expand d l) 0 = nth r l 0 + d * Z.of_nat r.
Proof. intros Hr. unfold expand. now rewrite expand_from_nth. Qed.

(** Every element of the expanded list is an element of the original moved
    by [d] times its position. *)
Lemma expand_In (d : Z) (l : list Z) (v : Z) :
  In v (expand d l) ->
  exists r, (r < length l)%nat /\ v = nth r l 0 + d * Z.of_nat r.
Proof.
  intros Hin. apply (In_nth _ _ 0) in Hin as (r & Hr & <-).
  unfold expand in Hr. rewrite expand_from_length in Hr.
  exists r. split; [exact Hr | now apply expand_nth].
Qed.

(** With gaps of at least [g], positions [i <= j] hold values at least
    [g * (j - i)] apart. *)
Lemma gaps_ge_nth (g : Z) (l : list Z) (i j : nat) :
  gaps_ge g l -> (i <= j < length l)%nat ->
  g * (Z.of_nat j - Z.of_nat i) <= nth j l 0 - nth i l 0.
Proof.
  revert i j. induction l as [|a t IH]; intros i j H Hij; simpl in Hij.
  - lia.
  - destruct j as [|j'].
    + assert (i = 0%nat) as -> by lia. cbn [nth]. lia.
    + destruct i as [|i'].
      * destruct t as [|b u]; simpl in Hij; [lia|].
        apply gaps_ge_cons2 in H as [Hab Hbu].
        specialize (IH 0%nat j' Hbu ltac:(simpl; lia)).
        change (nth (S j') (a :: b :: u) 0) with (nth j' (b :: u) 0).
        change (nth 0 (a :: b :: u) 0) with a.
        change (nth 0 (b :: u) 0) with b in IH. lia.
      * cbn [nth]. apply gaps_ge_tail in H.
        specialize (IH i' j' H ltac:(lia)). lia.
Qed.

(** The expansion carries the [k]-subsets of [[1, m)] to the [k]-subsets of
    [[1, m + (k-1)*d)] whose gaps grew by [d], for [d] of either sign as
    long as the gaps stay positive. *)
Lemma expand_spaced (g d m k : Z) (l : list Z) :
  1 <= g + d ->
  spaced_subset g m k l ->
  spaced_subset (g + d) (m + (k - 1) * d) k (expand d l).
Proof.
  intros Hgd (Hlen & Hin & Hgaps). split; [|split].
  - now rewrite expand_len.
  - apply Forall_forall. intros v Hv.
    apply expand_In in Hv as (r & Hr & ->).
    rewrite Forall_forall in Hin.
    pose proof (Hin (nth 0 l 0) ltac:(apply nth_In; lia)) as Hfirst.
    pose proof (Hin (nth (length l - 1) l 0) ltac:(apply nth_In; lia)) as Hlast.
    pose proof (gaps_ge_nth g l 0 r Hgaps ltac:(lia)) as Hlo.
    pose proof (gaps_ge_nth g l r (length l - 1) Hgaps ltac:(lia)) as Hhi.
    unfold len in Hlen.
    replace (Z.of_nat (length l - 1)) with (k - 1) in Hhi by lia.
    nia.
  - now apply expand_from_gaps.
Qed.

(** ** [random.sample] on [range(1, m)] *)

Lemma sample_accepts (population : list Z) (k : Z) (picks : list nat) :
  0 <= k <= len population ->
  sample population k picks = Ok (map (fun j => nth j population 0) picks).
Proof.
  intros Hk. unfold sample.
  destruct (Z.leb_spec 0 k), (Z.leb_spec k (len population)); simpl; auto; lia.
Qed.

Lemma sample_rejects (population : list Z) (k : Z) (picks : list nat) :
  k < 0 \/ len population < k ->
  sample population k picks = Raise ValueError.
Proof.
  intros Hk. unfold sample.
  destruct (Z.leb_spec 0 k), (Z.leb_spec k (len population)); simpl; auto; lia.
Qed.

Section Draw.
Variables (m k : Z) (picks : list nat).
Hypothesis fair : fair_picks (length (range 1 m)) k picks.

Lemma drawn_values : drawn m picks = map (fun j => 1 + Z.of_nat j) picks.
Proof using fair.
  destruct fair as (_ & _ & Hlt). rewrite Forall_forall in Hlt.
  apply map_ext_in. intros j Hj. apply range_nth.
  rewrite <- range_length. now apply Hlt.
Qed.

Lemma drawn_len : len (drawn m picks) = k.
Proof using fair. unfold drawn. rewrite len_map. apply fair. Qed.

Lemma drawn_in_range : Forall (fun v => 1 <= v < m) (drawn m picks).
Proof using fair.
  rewrite drawn_values. destruct fair as (_ & _ & Hlt).
  rewrite Forall_map. eapply Forall_impl; [|exact Hlt].
  intros j Hj. simpl in Hj. rewrite range_length in Hj. lia.
Qed.

Lemma drawn_distinct : NoDup (drawn m picks).
Proof using fair.
  rewrite drawn_values. apply Injective_map_NoDup; [|apply fair].
  intros i j Hij. lia.
Qed.
End Draw.

(** Conversely every list of [k] different values of [[1, m)] is what a
    fair choice returns. *)
Lemma every_draw_possible (m k : Z) (raw : list Z) :
  len raw = k -> NoDup raw -> Forall (fun v => 1 <= v < m) raw ->
  exists picks,
    fair_picks (length (range 1 m)) k picks /\ drawn m picks = raw.
Proof.
  intros Hlen Hnd Hin. exists (map (fun v => Z.to_nat (v - 1)) raw).
  assert (Hfair : fair_picks (length (range 1 m)) k
                    (map (fun v => Z.to_nat (v - 1)) raw)).
  { split; [|split].
    - now rewrite len_map.
    - clear Hlen. induction Hnd as [|a t Ha Ht IH]; simpl; constructor.
      + intros Hmap. apply in_map_iff in Hmap as (b & Hb & Hbt).
        inversion Hin as [|? ? Hra Hrt]; subst.
        rewrite Forall_forall in Hrt. specialize (Hrt _ Hbt).
        assert (a = b) by lia. subst. contradiction.
      + apply IH. now inversion Hin.
    - rewrite Forall_map. eapply Forall_impl; [|exact Hin].
      intros v Hv. simpl in Hv. rewrite range_length. lia. }
  split; [exact Hfair|].
  rewrite (drawn_values _ _ _ Hfair), map_map.
  rewrite <- (map_id raw) at 2. apply map_ext_in.
  intros v Hv. rewrite Forall_forall in Hin. specialize (Hin _ Hv). lia.
Qed.

(** ** What [sample_with_minimum_distance] returns *)

Lemma swmd_ranks (n k d : Z) (picks : list nat) :
  sample_with_minimum_distance n k d picks =
  (sampl <- sample (range 1 (n - (k - 1) * d)) k picks ;;
   Ok (map (fun '(s, r) => s + d * Z.of_nat r)
           (combine sampl (ranks_of sampl)))).
Proof. reflexivity. Qed.

Lemma combine_map_shift (d : Z) (f : Z -> nat) (l : list Z) :
  map (fun '(s, r) => s + d * Z.of_nat r) (combine l (map f l))
  = map (fun s => s + d * Z.of_nat (f s)) l.
Proof.
  induction l as [|a t IH]; simpl; [|rewrite IH]; reflexivity.
Qed.

Lemma valid_accepted (n k d : Z) :
  valid n k d -> 0 <= k <= len (range 1 (n - (k - 1) * d)).
Proof. intros (Hn & Hk & Hd & Hm). rewrite len_range. lia. Qed.

(** An accepted call with a fair choice returns the shifted sample. *)
Lemma swmd_returns (n k d : Z) (picks : list nat) :
  0 <= k <= len (range 1 (n - (k - 1) * d)) ->
  fair_draw n k d picks ->
  let sampl := drawn (n - (k - 1) * d) picks in
  sample (range 1 (n - (k - 1) * d)) k picks = Ok sampl /\
  sample_with_minimum_distance n k d picks = Ok (map (shift d sampl) sampl).
Proof.
  intros Hk Hfair sampl.
  assert (Hs : sample (range 1 (n - (k - 1) * d)) k picks = Ok sampl)
    by now apply sample_accepts.
  split; [exact Hs|].
  rewrite swmd_ranks, Hs. simpl.
  rewrite ranks_are_ranks by (eapply drawn_distinct; exact Hfair).
  now rewrite combine_map_shift.
Qed.

(** The call is rejected exactly when [random.sample] rejects its size
    argument, and then whatever the generator would have chosen. *)
Lemma swmd_rejects (n k d : Z) (picks : list nat) :
  k < 0 \/ len (range 1 (n - (k - 1) * d)) < k ->
  sample_with_minimum_distance n k d picks = Raise ValueError.
Proof.
  intros Hk. rewrite swmd_ranks, sample_rejects by exact Hk. reflexivity.
Qed.

Lemma swmd_accepts (n k d : Z) (picks : list nat) :
  0 <= k <= len (range 1 (n - (k - 1) * d)) ->
  exists out, sample_with_minimum_distance n k d picks = Ok out.
Proof.
  intros Hk. rewrite swmd_ranks, sample_accepts by exact Hk. simpl. eauto.
Qed.

(** ** The shifted sample *)

Lemma NoDup_map_on {A B : Type} (f : A -> B) (l : list A) :
  (forall x y, In x l -> In y l -> f x = f y -> x = y) ->
  NoDup l -> NoDup (map f l).
Proof.
  intros Hinj Hnd. induction Hnd as [|a t Ha Ht IH]; simpl; constructor.
  - intros Hin. apply in_map_iff in Hin as (b & Hfb & Hb).
    assert (b = a) by (apply Hinj; simpl; auto). subst. contradiction.
  - apply IH. intros x y Hx Hy. apply Hinj; simpl; auto.
Qed.

Section Shifted.
Variables (d : Z) (sampl : list Z).
Hypothesis sampl_distinct : NoDup sampl.

Lemma shifted_length : len (map (shift d sampl) sampl) = len sampl.
Proof. apply len_map. Qed.

Lemma shifted_nth (i : nat) :
  (i < length sampl)%nat ->
  nth i (map (shift d sampl) sampl) 0
  = nth i sampl 0 + d * Z.of_nat (rank sampl (nth i sampl 0)).
Proof. intros Hi. now rewrite (nth_map_in _ _ _ 0). Qed.

(** On an ascending arrangement of the sample the shift is the
    expansion. *)
Lemma shift_is_expand (s : list Z) :
  StronglySorted Z.lt s -> Permutation s sampl ->
  map (shift d sampl) s = expand d s.
Proof.
  intros Hs Hp. apply nth_ext with (d := 0) (d' := 0).
  - unfold expand. now rewrite length_map, expand_from_length.
  - intros r Hr. rewrite length_map in Hr.
    rewrite (nth_map_in _ _ _ 0), expand_nth by exact Hr.
    unfold shift. rewrite <- (rank_perm _ _ _ Hp).
    now rewrite rank_of_position.
Qed.

Lemma sorted_sample_strict : StronglySorted Z.lt (sorted_int sampl).
Proof using sampl_distinct.
  apply ascending_distinct_strict.
  - apply sorted_int_ascending.
  - apply (Permutation_NoDup (Permutation_sym (sorted_int_perm sampl))).
    exact sampl_distinct.
Qed.

Hypothesis d_nonneg : 0 <= d.

(** A larger value of the sample lands more than [d] above a smaller one. *)
Lemma shift_gap (x y : Z) :
  In x sampl -> x < y -> shift d sampl x + d + 1 <= shift d sampl y.
Proof using d_nonneg.
  intros Hx Hxy. unfold shift.
  pose proof (rank_strict sampl x y Hx Hxy). nia.
Qed.

Lemma shift_order (x y : Z) :
  In x sampl -> In y sampl ->
  (shift d sampl x < shift d sampl y <-> x < y).
Proof using d_nonneg.
  intros Hx Hy. split.
  - intros Hlt. destruct (Z.lt_trichotomy x y) as [H|[->|H]].
    + exact H.
    + lia.
    + pose proof (shift_gap y x Hy H). lia.
  - intros Hlt. pose proof (shift_gap x y Hx Hlt). lia.
Qed.

(** Sorting the result is expanding the sorted sample. *)
Lemma sorted_shifted :
  sorted_int (map (shift d sampl) sampl) = expand d (sorted_int sampl).
Proof using d_nonneg sampl_distinct.
  apply sorted_int_char.
  - apply (gaps_ascending (1 + d)); [lia|].
    apply expand_from_gaps, strict_gaps, sorted_sample_strict.
  - rewrite <- shift_is_expand.
    + apply Permutation_map, sorted_int_perm.
    + apply sorted_sample_strict.
    + apply sorted_int_perm.
Qed.


Lemma shifted_apart (a b : Z) :
  In a (map (shift d sampl) sampl) -> In b (map (shift d sampl) sampl) ->
  a <> b -> d + 1 <= Z.abs (b - a).
Proof using d_nonneg.
  intros Ha Hb Hab.
  apply in_map_iff in Ha as (x & <- & Hx).
  apply in_map_iff in Hb as (y & <- & Hy).
  destruct (Z.lt_trichotomy x y) as [H|[->|H]].
  - pose proof (shift_gap x y Hx H). lia.
  - contradiction.
  - pose proof (shift_gap y x Hy H). lia.
Qed.

Lemma shifted_distinct : NoDup (map (shift d sampl) sampl).
Proof using d_nonneg sampl_distinct.
  assert (Hinj : forall x y, In x sampl -> In y sampl ->
                   shift d sampl x = shift d sampl y -> x = y).
  { intros x y Hx Hy Heq. destruct (Z.lt_trichotomy x y) as [H|[->|H]].
    - pose proof (shift_gap x y Hx H). lia.
    - reflexivity.
    - pose proof (shift_gap y x Hy H). lia. }
  apply NoDup_map_on; assumption.
Qed.

Lemma shifted_in_range (m k : Z) :
  len sampl = k -> Forall (fun v => 1 <= v < m) sampl ->
  Forall (fun v => 1 <= v <= m + (k - 1) * d - 1) (map (shift d sampl) sampl).
Proof using d_nonneg.
  intros Hlen Hin. rewrite Forall_map, Forall_forall in *.
  intros x Hx. specialize (Hin x Hx). unfold shift.
  pose proof (rank_lt_length sampl x Hx). unfold len in Hlen. nia.
Qed.
End Shifted.

(** A valid call with a fair choice: what is drawn and what is returned. *)
Lemma valid_call (n k d : Z) (picks : list nat) :
  valid n k d -> fair_draw n k d picks ->
  exists sampl,
    sample (range 1 (n - (k - 1) * d)) k picks = Ok sampl /\
    sample_with_minimum_distance n k d picks = Ok (map (shift d sampl) sampl) /\
    len sampl = k /\ NoDup sampl /\
    Forall (fun v => 1 <= v < n - (k - 1) * d) sampl.
Proof.
  intros Hv Hfair. exists (drawn (n - (k - 1) * d) picks).
  destruct (swmd_returns n k d picks (valid_accepted _ _ _ Hv) Hfair) as [Hs Hout].
  repeat split; auto.
  - eapply drawn_len; exact Hfair.
  - eapply drawn_distinct; exact Hfair.
  - eapply drawn_in_range; exact Hfair.
Qed.

Lemma sorted_sample_spaced (m k : Z) (sampl : list Z) :
  len sampl = k -> NoDup sampl -> Forall (fun v => 1 <= v < m) sampl ->
  spaced_subset 1 m k (sorted_int sampl).
Proof.
  intros Hlen Hnd Hin. split; [|split].
  - unfold len. rewrite (Permutation_length (sorted_int_perm sampl)). exact Hlen.
  - apply (Permutation_Forall (Permutation_sym (sorted_int_perm sampl))), Hin.
  - apply strict_gaps, sorted_sample_strict, Hnd.
Qed.

(** Sorted, the result of a valid call is a [k]-subset of [[1, n)] with
    neighbours more than [d] apart. *)
Lemma valid_call_sorted (n k d : Z) (picks : list nat) (out : list Z) :
  valid n k d -> fair_draw n k d picks ->
  sample_with_minimum_distance n k d picks = Ok out ->
  spaced_subset (d + 1) n k (sorted_int out).
Proof.
  intros Hv Hfair Hout.
  destruct (valid_call n k d picks Hv Hfair) as (sampl & _ & Hout' & Hlen & Hnd & Hin).
  rewrite Hout' in Hout. injection Hout as <-.
  destruct Hv as (_ & _ & Hd & _).
  rewrite sorted_shifted by assumption.
  replace (d + 1) with (1 + d) by lia.
  replace n with (n - (k - 1) * d + (k - 1) * d) at 1 by lia.
  apply expand_spaced; [lia|]. now apply sorted_sample_spaced.
Qed.

Ltac fair_draw_holds :=
  unfold fair_draw, fair_picks; split; [reflexivity | split];
  [ repeat constructor; simpl; intuition lia
  | repeat constructor; simpl; lia ].

Ltac valid_holds := unfold valid; lia.

(** * The properties of [sample_with_minimum_distance] *)

(** C5. For valid [(n, k, d)] and whatever the generator chooses, the call
    returns a list of exactly [k] elements, and no value occurs twice in
    it. *)
Theorem count_and_distinctness (n k d : Z) (picks : list nat) :
  valid n k d -> fair_draw n k d picks ->
  exists out,
    sample_with_minimum_distance n k d picks = Ok out /\
    len out = k /\ NoDup out.
Proof.
  intros Hv Hfair.
  destruct (valid_call n k d picks Hv Hfair) as (sampl & _ & Hout & Hlen & Hnd & _).
  exists (map (shift d sampl) sampl). split; [exact Hout|]. split.
  - now rewrite shifted_length.
  - apply shifted_distinct; [exact Hnd | apply Hv].
Qed.

Lemma count_and_distinctness_witness :
  valid 10 3 2 /\ fair_draw 10 3 2 [4; 0; 2]%nat /\
  exists out,
    sample_with_minimum_distance 10 3 2 [4; 0; 2]%nat = Ok out /\
    len out = 3 /\ NoDup out.
Proof.
  assert (Hv : valid 10 3 2) by valid_holds.
  assert (Hf : fair_draw 10 3 2 [4; 0; 2]%nat) by fair_draw_holds.
  split; [exact Hv|]. split; [exact Hf|].
  exact (count_and_distinctness 10 3 2 [4; 0; 2]%nat Hv Hf).
Defined.

(** C6. For valid [(n, k, d)] every returned value [v] satisfies
    [1 <= v <= n - 1]; neither [0] nor [n] is ever returned. *)
Theorem values_in_range (n k d : Z) (picks : list nat) :
  valid n k d -> fair_draw n k d picks ->
  exists out,
    sample_with_minimum_distance n k d picks = Ok out /\
    Forall (fun v => 1 <= v <= n - 1) out /\
    ~ In 0 out /\ ~ In n out.
Proof.
  intros Hv Hfair.
  destruct (valid_call n k d picks Hv Hfair) as (sampl & _ & Hout & Hlen & Hnd & Hin).
  exists (map (shift d sampl) sampl). split; [exact Hout|].
  assert (Hr : Forall (fun v => 1 <= v <= n - 1) (map (shift d sampl) sampl)).
  { pose proof (shifted_in_range d sampl ltac:(apply Hv) _ _ Hlen Hin) as H.
    eapply Forall_impl; [|exact H]. intros v Hb. simpl in Hb. lia. }
  split; [exact Hr|].
  rewrite Forall_forall in Hr.
  split; intros Hbad; apply Hr in Hbad; lia.
Qed.

Lemma values_in_range_witness :
  valid 10 3 2 /\ fair_draw 10 3 2 [0; 4; 1]%nat /\
  exists out,
    sample_with_minimum_distance 10 3 2 [0; 4; 1]%nat = Ok out /\
    Forall (fun v => 1 <= v <= 10 - 1) out /\
    ~ In 0 out /\ ~ In 10 out.
Proof.
  assert (Hv : valid 10 3 2) by valid_holds.
  assert (Hf : fair_draw 10 3 2 [0; 4; 1]%nat) by fair_draw_holds.
  split; [exact Hv|]. split; [exact Hf|].
  exact (values_in_range 10 3 2 [0; 4; 1]%nat Hv Hf).
Defined.

(** C4. For valid [(n, k, d)], once the returned sequence is sorted
    ascending, every adjacent pair, as [pairwise] produces them, differs by
    at least [d]: [output[i+1] - output[i] >= d] for all [i]. *)
Theorem minimum_spacing (n k d : Z) (picks : list nat) :
  valid n k d -> fair_draw n k d picks ->
  exists out,
    sample_with_minimum_distance n k d picks = Ok out /\
    Forall (fun p => d <= snd p - fst p) (pairwise (sorted_int out)) /\
    forall i, (i + 1 < length (sorted_int out))%nat ->
      d <= nth (i + 1) (sorted_int out) 0 - nth i (sorted_int out) 0.
Proof.
  intros Hv Hfair.
  destruct (swmd_accepts n k d picks (valid_accepted _ _ _ Hv)) as [out Hout].
  exists out. split; [exact Hout|].
  destruct (valid_call_sorted n k d picks out Hv Hfair Hout) as (_ & _ & Hg).
  assert (Hd : gaps_ge d (sorted_int out))
    by (eapply gaps_ge_weaken; [|exact Hg]; lia).
  split; [exact Hd|].
  intros i Hi.
  pose proof (gaps_ge_nth d _ i (i + 1) Hd ltac:(lia)). lia.
Qed.

Lemma minimum_spacing_witness :
  valid 10 3 2 /\ fair_draw 10 3 2 [3; 0; 1]%nat /\
  exists out,
    sample_with_minimum_distance 10 3 2 [3; 0; 1]%nat = Ok out /\
    Forall (fun p => 2 <= snd p - fst p) (pairwise (sorted_int out)) /\
    forall i, (i + 1 < length (sorted_int out))%nat ->
      2 <= nth (i + 1) (sorted_int out) 0 - nth i (sorted_int out) 0.
Proof.
  assert (Hv : valid 10 3 2) by valid_holds.
  assert (Hf : fair_draw 10 3 2 [3; 0; 1]%nat) by fair_draw_holds.
  split; [exact Hv|]. split; [exact Hf|].
  exact (minimum_spacing 10 3 2 [3; 0; 1]%nat Hv Hf).
Defined.

(** C8. For valid [(n, k, d)] with [k >= 2], once the returned sequence is
    sorted ascending, every adjacent pair differs by at least [d + 1]; two
    different returned values are never exactly [d] apart. *)
Theorem spacing_exceeds_d (n k d : Z) (picks : list nat) :
  valid n k d -> 2 <= k -> fair_draw n k d picks ->
  exists out,
    sample_with_minimum_distance n k d picks = Ok out /\
    Forall (fun p => d + 1 <= snd p - fst p) (pairwise (sorted_int out)) /\
    (forall i, (i + 1 < length (sorted_int out))%nat ->
       d + 1 <= nth (i + 1) (sorted_int out) 0 - nth i (sorted_int out) 0) /\
    (forall a b, In a out -> In b out -> a <> b -> Z.abs (b - a) <> d).
Proof.
  intros Hv _ Hfair.
  destruct (valid_call n k d picks Hv Hfair) as (sampl & _ & Hout & Hlen & Hnd & Hin).
  exists (map (shift d sampl) sampl). split; [exact Hout|].
  destruct (valid_call_sorted n k d picks _ Hv Hfair Hout) as (_ & _ & Hg).
  split; [exact Hg|]. split.
  - intros i Hi.
    pose proof (gaps_ge_nth (d + 1) _ i (i + 1) Hg ltac:(lia)). lia.
  - intros a b Ha Hb Hab.
    pose proof (shifted_apart d sampl ltac:(apply Hv) a b Ha Hb Hab). lia.
Qed.

Lemma spacing_exceeds_d_witness :
  valid 10 2 2 /\ 2 <= 2 /\ fair_draw 10 2 2 [1; 0]%nat /\
  exists out,
    sample_with_minimum_distance 10 2 2 [1; 0]%nat = Ok out /\
    Forall (fun p => 2 + 1 <= snd p - fst p) (pairwise (sorted_int out)) /\
    (forall i, (i + 1 < length (sorted_int out))%nat ->
       2 + 1 <= nth (i + 1) (sorted_int out) 0 - nth i (sorted_int out) 0) /\
    (forall a b, In a out -> In b out -> a <> b -> Z.abs (b - a) <> 2).
Proof.
  assert (Hv : valid 10 2 2) by valid_holds.
  assert (Hf : fair_draw 10 2 2 [1; 0]%nat) by fair_draw_holds.
  split; [exact Hv|]. split; [lia|]. split; [exact Hf|].
  exact (spacing_exceeds_d 10 2 2 [1; 0]%nat Hv ltac:(lia) Hf).
Defined.

(** C7. For valid [(n, k, d)] and every raw draw of [k] distinct values of
    [[1, n - (k-1)*d)], the [i]-th returned element is the [i]-th raw value
    plus [d] times the 0-based ascending rank of that value among the raw
    values; so the result is in the same relative order as the draw:
    [output[i] < output[j]] iff [raw[i] < raw[j]]. *)
Theorem expansion_by_rank (n k d : Z) (picks : list nat) :
  valid n k d -> fair_draw n k d picks ->
  exists raw out,
    sample (range 1 (n - (k - 1) * d)) k picks = Ok raw /\
    sample_with_minimum_distance n k d picks = Ok out /\
    len raw = k /\ NoDup raw /\
    Forall (fun v => 1 <= v < n - (k - 1) * d) raw /\
    (forall i, Z.of_nat i < k ->
       nth i out 0 = nth i raw 0 + d * Z.of_nat (rank raw (nth i raw 0))) /\
    (forall i j, Z.of_nat i < k -> Z.of_nat j < k ->
       (nth i out 0 < nth j out 0 <-> nth i raw 0 < nth j raw 0)).
Proof.
  intros Hv Hfair.
  destruct (valid_call n k d picks Hv Hfair) as (sampl & Hs & Hout & Hlen & Hnd & Hin).
  exists sampl, (map (shift d sampl) sampl).
  repeat (split; [assumption|]).
  unfold len in Hlen. split.
  - intros i Hi. apply shifted_nth. lia.
  - intros i j Hi Hj.
    rewrite !(nth_map_in (shift d sampl) sampl _ 0) by lia.
    apply shift_order; [apply Hv | apply nth_In; lia | apply nth_In; lia].
Qed.

Lemma expansion_by_rank_witness :
  valid 10 3 2 /\ fair_draw 10 3 2 [4; 0; 2]%nat /\
  exists raw out,
    sample (range 1 (10 - (3 - 1) * 2)) 3 [4; 0; 2]%nat = Ok raw /\
    sample_with_minimum_distance 10 3 2 [4; 0; 2]%nat = Ok out /\
    len raw = 3 /\ NoDup raw /\
    Forall (fun v => 1 <= v < 10 - (3 - 1) * 2) raw /\
    (forall i, Z.of_nat i < 3 ->
       nth i out 0 = nth i raw 0 + 2 * Z.of_nat (rank raw (nth i raw 0))) /\
    (forall i j, Z.of_nat i < 3 -> Z.of_nat j < 3 ->
       (nth i out 0 < nth j out 0 <-> nth i raw 0 < nth j raw 0)).
Proof.
  assert (Hv : valid 10 3 2) by valid_holds.
  assert (Hf : fair_draw 10 3 2 [4; 0; 2]%nat) by fair_draw_holds.
  split; [exact Hv|]. split; [exact Hf|].
  exact (expansion_by_rank 10 3 2 [4; 0; 2]%nat Hv Hf).
Defined.

(** C1, as the code has it.  For valid [(n, k, d)] the possible results,
    as sets (ascending lists), are exactly the [k]-subsets of [[1, n)] whose
    neighbours are at least [d + 1] apart; the sorted result is the
    expansion of the sorted raw draw; and the expansion is a bijection from
    the [k]-subsets of [[1, n - (k-1)*d)] onto those subsets, with
    [compress] as its inverse, so that a uniform raw [k]-subset gives a
    uniform subset with gaps of at least [d + 1]. *)
Theorem outputs_are_the_spaced_subsets (n k d : Z) :
  valid n k d ->
  (forall T,
     (exists picks out,
        fair_draw n k d picks /\
        sample_with_minimum_distance n k d picks = Ok out /\
        sorted_int out = T)
     <-> spaced_subset (d + 1) n k T) /\
  (forall picks, fair_draw n k d picks ->
     exists raw out,
       sample (range 1 (n - (k - 1) * d)) k picks = Ok raw /\
       sample_with_minimum_distance n k d picks = Ok out /\
       spaced_subset 1 (n - (k - 1) * d) k (sorted_int raw) /\
       sorted_int out = expand d (sorted_int raw)) /\
  (forall S, spaced_subset 1 (n - (k - 1) * d) k S ->
     spaced_subset (d + 1) n k (expand d S)) /\
  (forall T, spaced_subset (d + 1) n k T ->
     spaced_subset 1 (n - (k - 1) * d) k (compress d T)) /\
  (forall S, compress d (expand d S) = S) /\
  (forall T, expand d (compress d T) = T).
Proof.
  intros Hv.
  assert (Hd : 0 <= d) by apply Hv.
  assert (Hfwd : forall S, spaced_subset 1 (n - (k - 1) * d) k S ->
                   spaced_subset (d + 1) n k (expand d S)).
  { intros S HS. replace (d + 1) with (1 + d) by lia.
    replace n with (n - (k - 1) * d + (k - 1) * d) at 1 by lia.
    apply expand_spaced; [lia | exact HS]. }
  assert (Hbwd : forall T, spaced_subset (d + 1) n k T ->
                   spaced_subset 1 (n - (k - 1) * d) k (compress d T)).
  { intros T HT. unfold compress.
    replace 1 with (d + 1 + - d) at 1 by lia.
    replace (n - (k - 1) * d) with (n + (k - 1) * - d) by lia.
    apply expand_spaced; [lia | exact HT]. }
  split; [|split; [|split; [exact Hfwd | split; [exact Hbwd | split]]]].
  - intros T. split.
    + intros (picks & out & Hfair & Hout & <-).
      now apply (valid_call_sorted n k d picks).
    + intros HT. pose proof (Hbwd T HT) as (Hlen & Hin & Hgaps).
      assert (Hstrict : StronglySorted Z.lt (compress d T))
        by now apply gaps_strict.
      destruct (every_draw_possible (n - (k - 1) * d) k (compress d T)
                  Hlen (strict_distinct _ Hstrict) Hin) as (picks & Hfair & Hraw).
      exists picks, T. split; [exact Hfair|]. split.
      * destruct (swmd_returns n k d picks (valid_accepted _ _ _ Hv) Hfair)
          as [_ Hout].
        rewrite Hout, Hraw. f_equal.
        rewrite shift_is_expand by (auto; reflexivity).
        apply expand_compress.
      * apply sorted_int_char; [|reflexivity].
        destruct HT as (_ & _ & HgT).
        apply (gaps_ascending (d + 1)); [lia | exact HgT].
  - intros picks Hfair.
    destruct (valid_call n k d picks Hv Hfair)
      as (sampl & Hs & Hout & Hlen & Hnd & Hin).
    exists sampl, (map (shift d sampl) sampl).
    repeat (split; [assumption|]). split.
    + now apply sorted_sample_spaced.
    + now apply sorted_shifted.
  - intros S. apply compress_expand.
  - intros T. apply expand_compress.
Qed.

Lemma outputs_are_the_spaced_subsets_witness :
  valid 10 2 2 /\
  ((exists picks out,
      fair_draw 10 2 2 picks /\
      sample_with_minimum_distance 10 2 2 picks = Ok out /\
      sorted_int out = [1; 4])
   <-> spaced_subset (2 + 1) 10 2 [1; 4]).
Proof.
  assert (Hv : valid 10 2 2) by valid_holds.
  split; [exact Hv|].
  exact (proj1 (outputs_are_the_spaced_subsets 10 2 2 Hv) [1; 4]).
Defined.

(** C1 as stated fails: [{1, 3}] is a 2-subset of [[1, 10)] whose gap is
    [2 >= d], and no choice of the generator makes
    [sample_with_minimum_distance(10, 2, 2)] return it. *)
Lemma gap_exactly_d_is_never_returned :
  valid 10 2 2 /\
  spaced_subset 2 10 2 [1; 3] /\
  ~ (exists picks out,
       fair_draw 10 2 2 picks /\
       sample_with_minimum_distance 10 2 2 picks = Ok out /\
       sorted_int out = [1; 3]).
Proof.
  assert (Hv : valid 10 2 2) by valid_holds.
  split; [exact Hv|]. split.
  - split; [reflexivity|]. split.
    + repeat constructor; lia.
    + repeat constructor; simpl; lia.
  - intros (picks & out & Hfair & Hout & Hsorted).
    destruct (valid_call_sorted 10 2 2 picks out Hv Hfair Hout) as (_ & _ & Hg).
    rewrite Hsorted in Hg. apply gaps_ge_cons2 in Hg as [Hg _]. lia.
Qed.

(** ** Rejected calls *)

(** The call fails exactly when [random.sample] refuses the sample size:
    [k] negative, or larger than the [max(n - (k-1)*d - 1, 0)] values of the
    range.  The error is [random.sample]'s [ValueError]; the module defines
    no error of its own for the sampler. *)
Lemma swmd_raises_iff (n k d : Z) (picks : list nat) :
  sample_with_minimum_distance n k d picks = Raise ValueError
  <-> k < 0 \/ Z.max 0 (n - (k - 1) * d - 1) < k.
Proof.
  rewrite <- len_range. split.
  - intros Hr.
    destruct (Z.lt_ge_cases k 0) as [|Hk0]; [now left|].
    destruct (Z.lt_ge_cases (len (range 1 (n - (k - 1) * d))) k) as [|Hk1];
      [now right|].
    destruct (swmd_accepts n k d picks ltac:(lia)) as [out Hout].
    congruence.
  - apply swmd_rejects.
Qed.

(** C2, as the code has it.  For every [(n, k, d)] with
    [n - (k-1)*d <= k] and [k <> 0] the call fails with [ValueError], the
    error [random.sample] raises on its size check: before any random draw
    (whatever the generator would choose) and with no output, partial or
    not.  In particular [sample_with_minimum_distance(5, 3, 2)] fails so. *)
Theorem rejection_when_range_too_small :
  (forall n k d, n - (k - 1) * d <= k -> k <> 0 ->
     forall picks,
       sample_with_minimum_distance n k d picks = Raise ValueError /\
       forall out, sample_with_minimum_distance n k d picks <> Ok out) /\
  (forall picks, sample_with_minimum_distance 5 3 2 picks = Raise ValueError).
Proof.
  assert (H : forall n k d, n - (k - 1) * d <= k -> k <> 0 ->
            forall picks,
              sample_with_minimum_distance n k d picks = Raise ValueError).
  { intros n k d Hm Hk picks. apply swmd_raises_iff. lia. }
  split.
  - intros n k d Hm Hk picks. split; [now apply H|].
    intros out. rewrite (H n k d Hm Hk picks). discriminate.
  - intros picks. apply (H 5 3 2); lia.
Qed.

Lemma rejection_when_range_too_small_witness :
  5 - (3 - 1) * 2 <= 3 /\ 3 <> 0 /\
  sample_with_minimum_distance 5 3 2 [0; 1; 2]%nat = Raise ValueError /\
  forall out, sample_with_minimum_distance 5 3 2 [0; 1; 2]%nat <> Ok out.
Proof.
  split; [lia|]. split; [lia|].
  apply (proj1 rejection_when_range_too_small 5 3 2); lia.
Defined.

(** C2 as stated fails for [k = 0]: with [n = 0], [k = 0], [d = 0] the
    compressed range is [0 <= k], and the call returns the empty list. *)
Lemma empty_sample_is_not_rejected :
  0 - (0 - 1) * 0 <= 0 /\
  fair_draw 0 0 0 [] /\
  sample_with_minimum_distance 0 0 0 [] = Ok [].
Proof.
  split; [lia|]. split; [|reflexivity].
  repeat split; constructor.
Qed.

(** C3, as the code has it.  For every [(n, k, d)] with [k < 0] the call
    fails with [ValueError] and produces no output.  A negative [d] or a
    non-positive [n] alone does not make it fail: it fails exactly when
    [k < 0] or [k] exceeds [max(n - (k-1)*d - 1, 0)]. *)
Theorem rejection_of_negative_size :
  (forall n k d, k < 0 ->
     forall picks,
       sample_with_minimum_distance n k d picks = Raise ValueError /\
       forall out, sample_with_minimum_distance n k d picks <> Ok out) /\
  (forall n k d picks,
     sample_with_minimum_distance n k d picks = Raise ValueError
     <-> k < 0 \/ Z.max 0 (n - (k - 1) * d - 1) < k) /\
  (forall n k d picks,
     (exists out, sample_with_minimum_distance n k d picks = Ok out)
     <-> 0 <= k <= Z.max 0 (n - (k - 1) * d - 1)).
Proof.
  split; [|split].
  - intros n k d Hk picks.
    assert (H : sample_with_minimum_distance n k d picks = Raise ValueError)
      by (apply swmd_raises_iff; now left).
    split; [exact H|]. intros out. rewrite H. discriminate.
  - apply swmd_raises_iff.
  - intros n k d picks. rewrite <- len_range. split.
    + intros [out Hout].
      destruct (Z.lt_ge_cases k 0) as [Hk0|Hk0];
        [rewrite swmd_rejects in Hout by (now left); discriminate|].
      destruct (Z.lt_ge_cases (len (range 1 (n - (k - 1) * d))) k) as [Hk1|Hk1];
        [rewrite swmd_rejects in Hout by (now right); discriminate|].
      lia.
    + apply swmd_accepts.
Qed.

Lemma rejection_of_negative_size_witness :
  -1 < 0 /\
  sample_with_minimum_distance 10 (-1) 2 [] = Raise ValueError /\
  forall out, sample_with_minimum_distance 10 (-1) 2 [] <> Ok out.
Proof.
  split; [lia|].
  apply (proj1 rejection_of_negative_size 10 (-1) 2); lia.
Defined.

(** C3 as stated fails for [d < 0]: [sample_with_minimum_distance(10, 2, -1)]
    draws from [range(1, 11)] and returns a list. *)
Lemma negative_distance_is_not_rejected :
  -1 < 0 /\
  fair_draw 10 2 (-1) [0; 1]%nat /\
  sample_with_minimum_distance 10 2 (-1) [0; 1]%nat = Ok [1; 1].
Proof.
  split; [lia|]. split; [fair_draw_holds | reflexivity].
Qed.

(** * [pairwise] *)

Lemma pairwise_length {A : Type} (xs : list A) :
  length (pairwise xs) = (length xs - 1)%nat.
Proof.
  destruct xs as [|x t]; [reflexivity|].
  unfold pairwise, tee, next_default.
  rewrite length_combine. simpl length. lia.
Qed.

Lemma pairwise_nth {A : Type} (xs : list A) (i : nat) (a b : A) :
  (i + 1 < length xs)%nat ->
  nth i (pairwise xs) (a, b) = (nth i xs a, nth (i + 1) xs b).
Proof.
  revert i. induction xs as [|x t IH]; intros i Hi; simpl in Hi; [lia|].
  destruct t as [|y u]; [simpl in Hi; lia|].
  rewrite pairwise_cons2. destruct i as [|i']; [reflexivity|].
  change (nth (S i') ((x, y) :: pairwise (y :: u)) (a, b))
    with (nth i' (pairwise (y :: u)) (a, b)).
  rewrite IH by lia. reflexivity.
Qed.

(** C9. For [xs] of length [L], [pairwise(xs)] is the sequence of the pairs
    [(xs[i], xs[i+1])] for [i] in [0 .. L-2], that is [max(L-1, 0)] pairs;
    for [L <= 1] it is empty and nothing is raised; and
    [pairwise([1, 2, 3])] is [[(1, 2), (2, 3)]]. *)
Theorem pairwise_adjacent_pairs :
  (forall (A : Type) (xs : list A),
     len (pairwise xs) = Z.max (len xs - 1) 0 /\
     (forall i a b, (i + 1 < length xs)%nat ->
        nth i (pairwise xs) (a, b) = (nth i xs a, nth (i + 1) xs b)) /\
     (len xs <= 1 -> pairwise xs = [])) /\
  @pairwise Z [] = [] /\
  (forall x : Z, pairwise [x] = []) /\
  pairwise [1; 2; 3] = [(1, 2); (2, 3)].
Proof.
  split; [|repeat split].
  intros A xs. split; [|split].
  - unfold len. rewrite pairwise_length. lia.
  - intros i a b. apply pairwise_nth.
  - unfold len. destruct xs as [|x [|y u]]; simpl length; intros H;
      [reflexivity | reflexivity | lia].
Qed.

(** * [load_fasta] *)

(** C10, as the code has it.  With the parser as an oracle that returns a
    Fasta object or raises, [load_fasta] returns the parser's object when
    parsing succeeds, and raises [FastaDuplicateHeaderError] exactly when
    the parser raises [ValueError]; any other exception of the parser
    leaves [load_fasta] as it was raised. *)
Theorem load_fasta_outcomes (Fasta : Type) (fname : string)
  (parser : result Fasta) :
  from_library parser ->
  (forall fasta, parser = Ok fasta -> load_fasta fname parser = Ok fasta) /\
  (forall fasta, load_fasta fname parser = Ok fasta -> parser = Ok fasta) /\
  (parser = Raise ValueError ->
     load_fasta fname parser =
     Raise (FastaDuplicateHeaderError
              ("Fasta " ++ fname ++ " contains duplicate header")%string)) /\
  (forall msg, load_fasta fname parser = Raise (FastaDuplicateHeaderError msg)
     <-> parser = Raise ValueError /\
         msg = ("Fasta " ++ fname ++ " contains duplicate header")%string) /\
  (forall e, parser = Raise e -> e <> ValueError ->
     load_fasta fname parser = Raise e).
Proof.
  intros Hlib. unfold load_fasta.
  destruct parser as [fasta | [ | msg' | cls]];
    [ | | destruct Hlib | ]; repeat apply conj;
    try (intros; congruence).
  - intros msg. split; [intros H; discriminate | intros [H _]; discriminate].
  - intros msg. split.
    + intros H. injection H as <-. now split.
    + intros [_ ->]. reflexivity.
  - intros msg. split; [intros H; discriminate | intros [H _]; discriminate].
Qed.

Lemma load_fasta_outcomes_witness :
  from_library (Raise ValueError : result unit) /\
  load_fasta "genome.fa" (Raise ValueError : result unit) =
  Raise (FastaDuplicateHeaderError "Fasta genome.fa contains duplicate header").
Proof.
  split; [exact I|].
  exact (proj1 (proj2 (proj2
           (load_fasta_outcomes unit "genome.fa" (Raise ValueError) I)))
           eq_refl).
Defined.

(** C10 as stated fails: when the parser raises an exception that is not a
    [ValueError], [load_fasta] neither returns a result nor raises
    [FastaDuplicateHeaderError]; the parser's exception escapes. *)
Lemma other_parser_exception_escapes :
  from_library (Raise (OtherException "FastaNotFoundError") : result unit) /\
  load_fasta "genome.fa"
    (Raise (OtherException "FastaNotFoundError") : result unit)
  = Raise (OtherException "FastaNotFoundError") /\
  ~ ((exists fasta : unit,
        load_fasta "genome.fa"
          (Raise (OtherException "FastaNotFoundError")) = Ok fasta) \/
     (exists msg,
        load_fasta "genome.fa"
          (Raise (OtherException "FastaNotFoundError") : result unit)
        = Raise (FastaDuplicateHeaderError msg))).
Proof.
  split; [exact I|]. split; [reflexivity|].
  intros [[fasta H] | [msg H]]; discriminate.
Qed.

(** * Further properties of [util.py] *)

(** ** [get_md5]: reading by chunks *)

Lemma iter_read_nil (size : nat) : iter_read size [] = [].
Proof. simp iter_read. destruct size; reflexivity. Qed.

Lemma iter_read_cons (size : nat) (b : byte) (f : list byte) :
  iter_read (S size) (b :: f)
  = firstn (S size) (b :: f) :: iter_read (S size) (skipn (S size) (b :: f)).
Proof. rewrite (iter_read_equation_1 (S size) (b :: f)). reflexivity. Qed.

(** The chunks of a file read [S s] bytes at a time, by induction on what
    is left of the file. *)
Lemma iter_read_ind (s : nat) (P : list byte -> list (list byte) -> Prop) :
  P [] [] ->
  (forall b f,
     P (skipn (S s) (b :: f)) (iter_read (S s) (skipn (S s) (b :: f))) ->
     P (b :: f)
       (firstn (S s) (b :: f) :: iter_read (S s) (skipn (S s) (b :: f)))) ->
  forall f, P f (iter_read (S s) f).
Proof.
  intros Hnil Hcons f.
  remember (length f) as n eqn:Hn. revert f Hn.
  induction n as [n IH] using lt_wf_ind. intros f Hn.
  destruct f as [|b f'].
  - rewrite iter_read_nil. exact Hnil.
  - rewrite iter_read_cons. apply Hcons.
    apply (IH (length (skipn (S s) (b :: f')))); [|reflexivity].
    subst n. rewrite length_skipn. simpl. lia.
Qed.

Lemma iter_read_concat (s : nat) (f : list byte) :
  concat (iter_read (S s) f) = f.
Proof.
  apply (iter_read_ind s (fun f chunks => concat chunks = f)).
  - reflexivity.
  - intros b f' IH. change (concat (?c :: ?l)) with (c ++ concat l).
    rewrite IH. apply firstn_skipn.
Qed.

Lemma iter_read_sizes (s : nat) (f : list byte) :
  Forall (fun chunk => (1 <= length chunk <= S s)%nat) (iter_read (S s) f).
Proof.
  apply (iter_read_ind s
           (fun _ chunks =>
              Forall (fun chunk => (1 <= length chunk <= S s)%nat) chunks)).
  - constructor.
  - intros b f' IH. constructor; [|exact IH].
    rewrite length_firstn. simpl length. lia.
Qed.

Lemma iter_read_full_chunks (s : nat) (f : list byte) (i : nat) :
  (S i < length (iter_read (S s) f))%nat ->
  length (nth i (iter_read (S s) f) []) = S s.
Proof.
  revert i.
  apply (iter_read_ind s
           (fun _ chunks =>
              forall i, (S i < length chunks)%nat ->
                        length (nth i chunks []) = S s)).
  - intros i Hi. simpl in Hi. lia.
  - intros b f' IH i Hi. destruct i as [|i'].
    + cbn [nth]. rewrite length_firstn.
      destruct (Nat.le_gt_cases (S s) (length (b :: f'))) as [Hle|Hgt]; [lia|].
      rewrite skipn_all2 in Hi by lia.
      rewrite iter_read_nil in Hi. simpl in Hi. lia.
    + cbn [nth]. apply IH. cbn [length] in Hi. lia.
Qed.

Lemma iter_read_count (s : nat) (f : list byte) :
  length (iter_read (S s) f) = ((length f + s) / S s)%nat.
Proof.
  apply (iter_read_ind s
           (fun f chunks => length chunks = ((length f + s) / S s)%nat)).
  - simpl length. rewrite Nat.add_0_l. symmetry. apply Nat.div_small. lia.
  - intros b f' IH. cbn [length] in *. rewrite IH, length_skipn.
    cbn [length].
    destruct (Nat.le_gt_cases (S s) (S (length f'))) as [Hle|Hgt].
    + replace (S (length f') + s)%nat
        with ((S (length f') - S s + s) + 1 * S s)%nat by lia.
      rewrite Nat.div_add by lia. lia.
    + replace (S (length f') - S s + s)%nat with s by lia.
      rewrite (Nat.div_small s) by lia.
      assert (((S (length f') + s) / S s = 1)%nat) as ->; [|reflexivity].
      replace (S (length f') + s)%nat with (length f' + 1 * S s)%nat by lia.
      rewrite Nat.div_add by lia. rewrite Nat.div_small by lia. reflexivity.
Qed.

Lemma fold_update_concat {hasher : Type}
  (update : hasher -> list byte -> hasher) :
  (forall h a b, update (update h a) b = update h (a ++ b)) ->
  (forall h, update h [] = h) ->
  forall chunks h, fold_left update chunks h = update h (concat chunks).
Proof.
  intros Happ Hnil chunks. induction chunks as [|c t IH]; intros h; simpl.
  - now rewrite Hnil.
  - now rewrite IH, Happ.
Qed.

(** X1. The chunks [get_md5] feeds to the hash object are the file cut
    into pieces of 4096 bytes: together they are the whole content, in
    order; each holds between 1 and 4096 bytes, and every one before the
    last exactly 4096; for a file of [L] bytes there are [ceil(L / 4096)]
    of them, so none for an empty file. *)
Theorem get_md5_chunks (f : list byte) :
  concat (iter_read 4096 f) = f /\
  Forall (fun chunk => (1 <= length chunk <= 4096)%nat) (iter_read 4096 f) /\
  (forall i, (S i < length (iter_read 4096 f))%nat ->
     length (nth i (iter_read 4096 f) []) = 4096%nat) /\
  length (iter_read 4096 f) = ((length f + 4095) / 4096)%nat /\
  (f = [] -> iter_read 4096 f = []).
Proof.
  split; [apply (iter_read_concat 4095)|].
  split; [apply (iter_read_sizes 4095)|].
  split; [apply (iter_read_full_chunks 4095)|].
  split; [apply (iter_read_count 4095)|].
  intros ->. apply iter_read_nil.
Qed.

(** X2. When the hash object behaves as [hashlib] documents ([update(a)]
    then [update(b)] is [update(a + b)], and [update(b"")] changes
    nothing), [get_md5] returns the digest of the whole file content as if
    it were hashed by one [update]: the chunk size does not show in the
    result. *)
Theorem get_md5_whole_file {hasher : Type} (md5 : hasher)
  (update : hasher -> list byte -> hasher) (hexdigest : hasher -> string)
  (f : list byte) :
  (forall h a b, update (update h a) b = update h (a ++ b)) ->
  (forall h, update h [] = h) ->
  get_md5 md5 update hexdigest (Ok f) = Ok (hexdigest (update md5 f)).
Proof.
  intros Happ Hnil. unfold get_md5, bind.
  rewrite (fold_update_concat update Happ Hnil).
  now rewrite (iter_read_concat 4095).
Qed.

Lemma get_md5_whole_file_witness :
  (forall h a b : list byte, (h ++ a) ++ b = h ++ (a ++ b)) /\
  (forall h : list byte, h ++ [] = h) /\
  get_md5 [] (@app byte) (fun h => string_of_list_byte h) (Ok [x61; x62; x63]%byte)
  = Ok (string_of_list_byte ([] ++ [x61; x62; x63]%byte)).
Proof.
  assert (Happ : forall h a b : list byte, (h ++ a) ++ b = h ++ (a ++ b))
    by (intros; symmetry; apply app_assoc).
  assert (Hnil : forall h : list byte, h ++ [] = h)
    by (intros; apply app_nil_r).
  split; [exact Happ|]. split; [exact Hnil|].
  exact (get_md5_whole_file [] (@app byte) (fun h => string_of_list_byte h)
           [x61; x62; x63]%byte Happ Hnil).
Defined.

(** ** [pairwise]: how the pairs relate to the sequence *)

Lemma pairwise_fst {A : Type} (xs : list A) :
  map fst (pairwise xs) = removelast xs.
Proof.
  induction xs as [|x t IH]; [reflexivity|].
  destruct t as [|y u]; [reflexivity|].
  rewrite pairwise_cons2. cbn [map fst]. now rewrite IH.
Qed.

Lemma pairwise_snd {A : Type} (xs : list A) :
  map snd (pairwise xs) = tl xs.
Proof.
  induction xs as [|x t IH]; [reflexivity|].
  destruct t as [|y u]; [reflexivity|].
  rewrite pairwise_cons2. cbn [map snd tl] in *. now rewrite IH.
Qed.

(** X3. The first components of [pairwise(xs)] are [xs] without its last
    element and the second components are [xs] without its first; a
    non-empty [xs] is its first element followed by the second
    components. *)
Theorem pairwise_components {A : Type} (xs : list A) :
  map fst (pairwise xs) = removelast xs /\
  map snd (pairwise xs) = tl xs /\
  (forall x t, xs = x :: t -> x :: map snd (pairwise xs) = xs).
Proof.
  split; [apply pairwise_fst|]. split; [apply pairwise_snd|].
  intros x t ->. now rewrite pairwise_snd.
Qed.

Lemma pairwise_app_cons {A : Type} (xs : list A) (a b : A) (ys : list A) :
  pairwise (xs ++ a :: b :: ys)
  = pairwise (xs ++ [a]) ++ (a, b) :: pairwise (b :: ys).
Proof.
  induction xs as [|x t IH]; [reflexivity|].
  destruct t as [|y u].
  - reflexivity.
  - change ((x :: y :: u) ++ a :: b :: ys)
      with (x :: y :: (u ++ a :: b :: ys)).
    change ((x :: y :: u) ++ [a]) with (x :: y :: (u ++ [a])).
    rewrite !pairwise_cons2.
    change (y :: (u ++ a :: b :: ys)) with ((y :: u) ++ a :: b :: ys).
    rewrite IH. reflexivity.
Qed.

(** X4. Cutting a sequence in two loses exactly the pair across the cut:
    for non-empty [xs] and [ys], [pairwise(xs + ys)] is [pairwise(xs)],
    then the pair of the last of [xs] and the first of [ys], then
    [pairwise(ys)]. *)
Theorem pairwise_concatenation {A : Type} (xs ys : list A) (a b : A) :
  pairwise ((xs ++ [a]) ++ b :: ys)
  = pairwise (xs ++ [a]) ++ (a, b) :: pairwise (b :: ys).
Proof. rewrite <- app_assoc. apply pairwise_app_cons. Qed.

(** X5. [pairwise] commutes with mapping: the pairs of the images are the
    images of the pairs. *)
Theorem pairwise_map {A B : Type} (f : A -> B) (xs : list A) :
  pairwise (map f xs) = map (fun p => (f (fst p), f (snd p))) (pairwise xs).
Proof.
  induction xs as [|x t IH]; [reflexivity|].
  destruct t as [|y u]; [reflexivity|].
  cbn [map] in *. rewrite !pairwise_cons2, IH. reflexivity.
Qed.

(** X6. Checking a relation on every pair of [pairwise(xs)] is checking
    that [xs] is a chain for it: the pairs all satisfy [R] exactly when
    each element of [xs] is related to the next one ([Sorted R xs]). *)
Theorem pairwise_all_iff_sorted {A : Type} (R : A -> A -> Prop) (xs : list A) :
  Forall (fun p => R (fst p) (snd p)) (pairwise xs) <-> Sorted R xs.
Proof.
  induction xs as [|x t IH].
  - split; constructor.
  - destruct t as [|y u].
    + split; intros _; repeat constructor.
    + rewrite pairwise_cons2. split.
      * intros H. inversion H as [|p l Hxy Hrest]; subst.
        constructor; [now apply IH | now constructor].
      * intros H. inversion H as [|? ? Hs Hhd]; subst.
        inversion Hhd; subst.
        constructor; [assumption | now apply IH].
Qed.

(** X7. The pairs of [pairwise(xs)] are exactly the pairs of neighbours:
    [(a, b)] is produced if and only if [b] directly follows [a]
    somewhere in [xs]. *)
Theorem pairwise_membership {A : Type} (xs : list A) (a b : A) :
  In (a, b) (pairwise xs) <-> exists l1 l2, xs = l1 ++ a :: b :: l2.
Proof.
  split.
  - induction xs as [|x t IH]; [intros []|].
    destruct t as [|y u]; [intros []|].
    rewrite pairwise_cons2. intros [Heq|Hin].
    + injection Heq as -> ->. now exists [], u.
    + destruct (IH Hin) as (l1 & l2 & Hl). exists (x :: l1), l2.
      now rewrite Hl.
  - intros (l1 & l2 & ->). rewrite pairwise_app_cons.
    apply in_or_app. right. now left.
Qed.

(** ** [sample_with_minimum_distance]: degenerate parameters *)

Lemma combine_no_shift (l : list Z) (r : list nat) :
  length r = length l ->
  map (fun '(s, r) => s + 0 * Z.of_nat r) (combine l r) = l.
Proof.
  revert r. induction l as [|a t IH]; intros [|b u] Hlen;
    simpl in *; try discriminate; [reflexivity|].
  rewrite IH by lia. f_equal. lia.
Qed.

(** X8. With [d = 0] the function is [random.sample(range(1, n), k)]: it
    fails on the same arguments and otherwise returns the raw draw
    unchanged, whatever the generator chooses. *)
Theorem zero_distance_is_plain_sample (n k : Z) (picks : list nat) :
  sample_with_minimum_distance n k 0 picks = sample (range 1 n) k picks.
Proof.
  rewrite swmd_ranks.
  replace (n - (k - 1) * 0) with n by lia.
  destruct (sample (range 1 n) k picks) as [sampl|e]; [|reflexivity].
  cbn [bind]. f_equal. apply combine_no_shift, ranks_length.
Qed.


(** X9. An empty sample is never refused: for [k = 0] the call returns the
    empty list for every [n] and [d], also when [n - (k-1)*d <= 0]. *)
Theorem empty_sample (n d : Z) (picks : list nat) :
  fair_draw n 0 d picks ->
  sample_with_minimum_distance n 0 d picks = Ok [].
Proof.
  intros (Hlen & _ & _).
  destruct picks as [|j t]; [|unfold len in Hlen; simpl in Hlen; lia].
  rewrite swmd_ranks, sample_accepts; [reflexivity|].
  pose proof (len_range 1 (n - (0 - 1) * d)). lia.
Qed.

Lemma empty_sample_witness :
  fair_draw (-7) 0 3 [] /\
  sample_with_minimum_distance (-7) 0 3 [] = Ok [].
Proof.
  assert (Hf : fair_draw (-7) 0 3 []) by (repeat split; constructor).
  split; [exact Hf|].
  exact (empty_sample (-7) 3 [] Hf).
Defined.



(** ** [sample_with_minimum_distance]: every call that returns *)

(** A call that returns was accepted by [random.sample], and its result is
    the shifted draw; no assumption on [n] or on the sign of [d]. *)
Lemma swmd_ok_inv (n k d : Z) (picks : list nat) (out : list Z) :
  fair_draw n k d picks ->
  sample_with_minimum_distance n k d picks = Ok out ->
  0 <= k <= len (range 1 (n - (k - 1) * d)) /\
  out = map (shift d (drawn (n - (k - 1) * d) picks))
            (drawn (n - (k - 1) * d) picks).
Proof.
  intros Hfair Hout.
  assert (Hacc : 0 <= k <= len (range 1 (n - (k - 1) * d))).
  { destruct (Z.lt_ge_cases k 0) as [Hk0|Hk0];
      [rewrite swmd_rejects in Hout by (now left); discriminate|].
    destruct (Z.lt_ge_cases (len (range 1 (n - (k - 1) * d))) k) as [Hk1|Hk1];
      [rewrite swmd_rejects in Hout by (now right); discriminate|].
    lia. }
  split; [exact Hacc|].
  destruct (swmd_returns n k d picks Hacc Hfair) as [_ Hout'].
  congruence.
Qed.

Lemma fair_picks_perm (size : nat) (k : Z) (picks picks' : list nat) :
  Permutation picks picks' ->
  fair_picks size k picks -> fair_picks size k picks'.
Proof.
  intros Hp (Hlen & Hnd & Hlt). split; [|split].
  - unfold len in *. now rewrite <- (Permutation_length Hp).
  - eapply Permutation_NoDup; eassumption.
  - eapply Permutation_Forall; eassumption.
Qed.

Lemma shift_perm (d : Z) (l l' : list Z) (s : Z) :
  Permutation l l' -> shift d l s = shift d l' s.
Proof. intros Hp. unfold shift. now rewrite (rank_perm _ _ _ Hp). Qed.

(** X11. The returned set depends on the drawn set only, not on the order
    of the draw: if the generator picks the same positions in another
    order, the call returns the same values in the corresponding order, so
    the same sorted result.  No assumption on [n], [k] or [d]. *)
Theorem draw_order_is_immaterial (n k d : Z) (picks picks' : list nat)
  (out : list Z) :
  Permutation picks picks' ->
  fair_draw n k d picks ->
  sample_with_minimum_distance n k d picks = Ok out ->
  exists out',
    sample_with_minimum_distance n k d picks' = Ok out' /\
    Permutation out out' /\
    sorted_int out' = sorted_int out.
Proof.
  intros Hp Hfair Hout.
  destruct (swmd_ok_inv n k d picks out Hfair Hout) as [Hacc ->].
  assert (Hfair' : fair_draw n k d picks')
    by (eapply fair_picks_perm; eassumption).
  destruct (swmd_returns n k d picks' Hacc Hfair') as [_ Hout'].
  assert (Hraw : Permutation (drawn (n - (k - 1) * d) picks)
                             (drawn (n - (k - 1) * d) picks'))
    by (unfold drawn; now apply Permutation_map).
  assert (Hperm : Permutation
            (map (shift d (drawn (n - (k - 1) * d) picks))
                 (drawn (n - (k - 1) * d) picks))
            (map (shift d (drawn (n - (k - 1) * d) picks'))
                 (drawn (n - (k - 1) * d) picks'))).
  { rewrite (map_ext _ _ (fun s => shift_perm d _ _ s Hraw)).
    now apply Permutation_map. }
  eexists. split; [exact Hout'|]. split; [exact Hperm|].
  apply sorted_int_char; [apply sorted_int_ascending|].
  rewrite sorted_int_perm. exact Hperm.
Qed.

Lemma draw_order_is_immaterial_witness :
  Permutation [4; 0; 2]%nat [0; 2; 4]%nat /\
  fair_draw 10 3 2 [4; 0; 2]%nat /\
  sample_with_minimum_distance 10 3 2 [4; 0; 2]%nat = Ok [9; 1; 5] /\
  exists out',
    sample_with_minimum_distance 10 3 2 [0; 2; 4]%nat = Ok out' /\
    Permutation [9; 1; 5] out' /\
    sorted_int out' = sorted_int [9; 1; 5].
Proof.
  assert (Hp : Permutation [4; 0; 2]%nat [0; 2; 4]%nat).
  { apply (perm_trans (perm_swap 0%nat 4%nat [2%nat])).
    apply perm_skip, perm_swap. }
  assert (Hf : fair_draw 10 3 2 [4; 0; 2]%nat) by fair_draw_holds.
  split; [exact Hp|]. split; [exact Hf|]. split; [reflexivity|].
  exact (draw_order_is_immaterial 10 3 2 [4; 0; 2]%nat [0; 2; 4]%nat
           [9; 1; 5] Hp Hf eq_refl).
Defined.

(** X12. For valid [(n, k, d)] two calls return the same set exactly when
    they drew the same raw set: each possible result set comes from the
    orderings of one raw [k]-subset and from no other draw. *)
Theorem same_result_iff_same_draw (n k d : Z) (picks1 picks2 : list nat)
  (raw1 raw2 out1 out2 : list Z) :
  valid n k d ->
  fair_draw n k d picks1 -> fair_draw n k d picks2 ->
  sample (range 1 (n - (k - 1) * d)) k picks1 = Ok raw1 ->
  sample (range 1 (n - (k - 1) * d)) k picks2 = Ok raw2 ->
  sample_with_minimum_distance n k d picks1 = Ok out1 ->
  sample_with_minimum_distance n k d picks2 = Ok out2 ->
  (sorted_int out1 = sorted_int out2 <-> Permutation raw1 raw2).
Proof.
  intros Hv Hf1 Hf2 Hr1 Hr2 Ho1 Ho2.
  destruct (valid_call n k d picks1 Hv Hf1) as (s1 & Hs1 & Hout1 & _ & Hnd1 & _).
  destruct (valid_call n k d picks2 Hv Hf2) as (s2 & Hs2 & Hout2 & _ & Hnd2 & _).
  assert (s1 = raw1) by congruence. assert (s2 = raw2) by congruence.
  subst s1 s2.
  rewrite Hout1 in Ho1. rewrite Hout2 in Ho2.
  injection Ho1 as <-. injection Ho2 as <-.
  assert (Hd : 0 <= d) by apply Hv.
  rewrite !sorted_shifted by assumption. split.
  - intros Heq.
    apply (f_equal (compress d)) in Heq. rewrite !compress_expand in Heq.
    rewrite <- (sorted_int_perm raw1), <- (sorted_int_perm raw2).
    now rewrite Heq.
  - intros Hp. f_equal.
    apply sorted_int_char; [apply sorted_int_ascending|].
    rewrite sorted_int_perm. now symmetry.
Qed.

Lemma same_result_iff_same_draw_witness :
  valid 10 3 2 /\
  fair_draw 10 3 2 [4; 0; 2]%nat /\ fair_draw 10 3 2 [0; 2; 4]%nat /\
  (sorted_int [9; 1; 5] = sorted_int [1; 5; 9] <->
   Permutation [5; 1; 3] [1; 3; 5]).
Proof.
  assert (Hv : valid 10 3 2) by valid_holds.
  assert (Hf1 : fair_draw 10 3 2 [4; 0; 2]%nat) by fair_draw_holds.
  assert (Hf2 : fair_draw 10 3 2 [0; 2; 4]%nat) by fair_draw_holds.
  split; [exact Hv|]. split; [exact Hf1|]. split; [exact Hf2|].
  exact (same_result_iff_same_draw 10 3 2 [4; 0; 2]%nat [0; 2; 4]%nat
           [5; 1; 3] [1; 3; 5] [9; 1; 5] [1; 5; 9]
           Hv Hf1 Hf2 eq_refl eq_refl eq_refl eq_refl).
Defined.

Lemma total_perm (l l' : list Z) : Permutation l l' -> total l = total l'.
Proof.
  induction 1 as [| a l l' _ IH | a b l | l l' l'' _ IH1 _ IH2];
    unfold total in *; simpl; lia.
Qed.

Lemma total_shift (d : Z) (f : Z -> nat) (l : list Z) :
  total (map (fun s => s + d * Z.of_nat (f s)) l)
  = total l + d * total (map Z.of_nat (map f l)).
Proof.
  induction l as [|a t IH]; unfold total in *; simpl; lia.
Qed.

Lemma total_seq (start count : nat) :
  2 * total (map Z.of_nat (seq start count))
  = Z.of_nat count * (2 * Z.of_nat start + Z.of_nat count - 1).
Proof.
  revert start. induction count as [|c IH]; intros start.
  - reflexivity.
  - change (seq start (S c)) with (start :: seq (S start) c).
    unfold total in *. cbn [map fold_right].
    specialize (IH (S start)). nia.
Qed.

(** X13. Whenever the call returns, with [d] of either sign, it returns
    [k] values and the [i]-th is the [i]-th raw value plus [d] times its
    rank, a rank between [0] and [k - 1]; so the values of the result add
    up to those of the raw draw plus [d * k * (k - 1) / 2]. *)
Theorem returned_values_and_their_sum (n k d : Z) (picks : list nat)
  (out : list Z) :
  fair_draw n k d picks ->
  sample_with_minimum_distance n k d picks = Ok out ->
  exists raw,
    sample (range 1 (n - (k - 1) * d)) k picks = Ok raw /\
    len out = k /\
    (forall i, Z.of_nat i < k ->
       nth i out 0 = nth i raw 0 + d * Z.of_nat (rank raw (nth i raw 0)) /\
       Z.of_nat (rank raw (nth i raw 0)) <= k - 1) /\
    2 * total out = 2 * total raw + d * k * (k - 1).
Proof.
  intros Hfair Hout.
  destruct (swmd_ok_inv n k d picks out Hfair Hout) as [Hacc ->].
  destruct (swmd_returns n k d picks Hacc Hfair) as [Hs _].
  pose proof (drawn_len _ _ _ Hfair) as Hlen.
  pose proof (drawn_distinct _ _ _ Hfair) as Hnd.
  set (raw := drawn (n - (k - 1) * d) picks) in *.
  exists raw. split; [exact Hs|]. split; [now rewrite shifted_length|].
  unfold len in Hlen. split.
  - intros i Hi. split; [apply shifted_nth; lia|].
    pose proof (rank_lt_length raw (nth i raw 0) ltac:(apply nth_In; lia)).
    lia.
  - unfold shift. rewrite total_shift.
    rewrite <- (ranks_are_ranks raw Hnd).
    rewrite (total_perm _ _ (Permutation_map Z.of_nat (ranks_perm raw))).
    pose proof (total_seq 0 (length raw)). nia.
Qed.

Lemma returned_values_and_their_sum_witness :
  fair_draw 10 2 (-1) [0; 1]%nat /\
  exists raw,
    sample (range 1 (10 - (2 - 1) * (-1))) 2 [0; 1]%nat = Ok raw /\
    len [1; 1] = 2 /\
    (forall i, Z.of_nat i < 2 ->
       nth i [1; 1] 0 = nth i raw 0 + (-1) * Z.of_nat (rank raw (nth i raw 0)) /\
       Z.of_nat (rank raw (nth i raw 0)) <= 2 - 1) /\
    2 * total [1; 1] = 2 * total raw + (-1) * 2 * (2 - 1).
Proof.
  assert (Hf : fair_draw 10 2 (-1) [0; 1]%nat) by fair_draw_holds.
  split; [exact Hf|].
  exact (returned_values_and_their_sum 10 2 (-1) [0; 1]%nat [1; 1] Hf eq_refl).
Defined.

(** ** [sample_with_minimum_distance]: what is refused *)

Lemma accepted_has_fair_draw (n k d : Z) :
  0 <= k <= len (range 1 (n - (k - 1) * d)) ->
  fair_draw n k d (seq 0 (Z.to_nat k)).
Proof.
  intros Hacc. split; [|split].
  - unfold len. rewrite length_seq. lia.
  - apply seq_NoDup.
  - apply Forall_forall. intros j Hj. apply in_seq in Hj.
    unfold len in Hacc. lia.
Qed.

Lemma spaced_subset_needs_room (n k d : Z) (T : list Z) :
  1 <= k -> 0 <= d -> spaced_subset (d + 1) n k T -> valid n k d.
Proof.
  intros Hk Hd (Hlen & Hin & Hgaps). unfold len in Hlen.
  rewrite Forall_forall in Hin.
  pose proof (Hin (nth 0 T 0) ltac:(apply nth_In; lia)) as Hfirst.
  pose proof (Hin (nth (length T - 1) T 0) ltac:(apply nth_In; lia)) as Hlast.
  pose proof (gaps_ge_nth (d + 1) T 0 (length T - 1) Hgaps ltac:(lia)) as Hspan.
  replace (Z.of_nat (length T - 1)) with (k - 1) in Hspan by lia.
  unfold valid. nia.
Qed.

(** X14. For [k >= 1] and [d >= 0] the call is refused only when nothing
    could be returned: it returns for some choice of the generator exactly
    when [[1, n)] has a [k]-subset with neighbours at least [d + 1] apart,
    and it raises [ValueError] for every choice exactly when there is
    none. *)
Theorem refused_only_without_room (n k d : Z) :
  1 <= k -> 0 <= d ->
  ((exists picks out,
      fair_draw n k d picks /\
      sample_with_minimum_distance n k d picks = Ok out)
   <-> exists T, spaced_subset (d + 1) n k T) /\
  ((forall picks, sample_with_minimum_distance n k d picks = Raise ValueError)
   <-> ~ exists T, spaced_subset (d + 1) n k T).
Proof.
  intros Hk Hd.
  assert (Hroom : (exists T, spaced_subset (d + 1) n k T) <-> valid n k d).
  { split.
    - intros [T HT]. now apply (spaced_subset_needs_room n k d T).
    - intros Hv.
      pose proof (accepted_has_fair_draw n k d (valid_accepted _ _ _ Hv)) as Hf.
      destruct (swmd_accepts n k d (seq 0 (Z.to_nat k))
                  (valid_accepted _ _ _ Hv)) as [out Hout].
      exists (sorted_int out).
      now apply (valid_call_sorted n k d (seq 0 (Z.to_nat k))). }
  assert (Hvalid : valid n k d <-> 0 <= k <= len (range 1 (n - (k - 1) * d))).
  { split; [apply valid_accepted|].
    rewrite len_range. unfold valid. nia. }
  split.
  - rewrite Hroom, Hvalid. split.
    + intros (picks & out & Hfair & Hout).
      now destruct (swmd_ok_inv n k d picks out Hfair Hout).
    + intros Hacc. exists (seq 0 (Z.to_nat k)).
      destruct (swmd_accepts n k d (seq 0 (Z.to_nat k)) Hacc) as [out Hout].
      exists out. split; [now apply accepted_has_fair_draw | exact Hout].
  - rewrite Hroom, Hvalid. split.
    + intros Hall Hacc.
      destruct (swmd_accepts n k d [] Hacc) as [out Hout].
      rewrite Hall in Hout. discriminate.
    + intros Hnot picks. apply swmd_rejects. lia.
Qed.

Lemma refused_only_without_room_witness :
  1 <= 3 /\ 0 <= 2 /\
  ((forall picks, sample_with_minimum_distance 5 3 2 picks = Raise ValueError)
   <-> ~ exists T, spaced_subset (2 + 1) 5 3 T).
Proof.
  split; [lia|]. split; [lia|].
  exact (proj2 (refused_only_without_room 5 3 2 ltac:(lia) ltac:(lia))).
Defined.

(** ** The messages *)

Lemma list_of_append (a b : string) :
  list_ascii_of_string (a ++ b)
  = (list_ascii_of_string a ++ list_ascii_of_string b)%list.
Proof. induction a as [|c a IH]; simpl; [|rewrite IH]; reflexivity. Qed.

Lemma list_of_string_inj (a b : string) :
  list_ascii_of_string a = list_ascii_of_string b -> a = b.
Proof.
  intros H. rewrite <- (string_of_list_ascii_of_string a),
    <- (string_of_list_ascii_of_string b). now rewrite H.
Qed.

Lemma append_inv_head (a x y : string) :
  (a ++ x = a ++ y)%string -> x = y.
Proof.
  intros H. apply list_of_string_inj.
  apply (f_equal list_ascii_of_string) in H. rewrite !list_of_append in H.
  eapply app_inv_head; exact H.
Qed.

Lemma append_inv_tail (c x y : string) :
  (x ++ c = y ++ c)%string -> x = y.
Proof.
  intros H. apply list_of_string_inj.
  apply (f_equal list_ascii_of_string) in H. rewrite !list_of_append in H.
  eapply app_inv_tail; exact H.
Qed.

Lemma format_warning_inj (colors : Colors) (no_color : bool) (m1 m2 : string) :
  format_warning colors m1 no_color = format_warning colors m2 no_color ->
  m1 = m2.
Proof.
  unfold format_warning. destruct no_color; intros H.
  - eapply append_inv_head; exact H.
  - apply append_inv_head, append_inv_tail in H.
    eapply append_inv_head; exact H.
Qed.

(** X15. A warning is the text [WARNING: ] followed by the message; with
    colours on, that text between the [warn] and [norm] sequences of
    [Colors] and otherwise unchanged.  Either way the message can be read
    back: two different messages never give the same warning. *)
Theorem warning_text (colors : Colors) (msg : string) :
  format_warning colors msg true = ("WARNING: " ++ msg)%string /\
  format_warning colors msg false
  = (Colors_warn colors ++ format_warning colors msg true
       ++ Colors_norm colors)%string /\
  (forall no_color msg',
     format_warning colors msg no_color = format_warning colors msg' no_color ->
     msg = msg').
Proof.
  split; [reflexivity|]. split; [reflexivity|].
  intros no_color msg'. apply format_warning_inj.
Qed.

(** X16. Diagnostics never reach the standard output and never rewrite
    what is already on a stream: [print_warning] and [exit_with_error]
    leave [stdout] as it is and only append to [stderr], [print_success]
    leaves [stderr] as it is and only appends to [stdout]; the line
    appended tells which message it was; and [exit_with_error] ends the
    process with status 1 with colours on or off. *)
Theorem diagnostics_on_stderr (colors : Colors) (no_color : bool)
  (c : console) :
  (forall msg,
     stdout (print_warning colors msg no_color c) = stdout c /\
     stderr (print_warning colors msg no_color c)
     = (stderr c ++ format_warning colors msg no_color ++ newline)%string) /\
  (forall e,
     snd (exit_with_error colors e no_color c) = Exit 1 /\
     stdout (fst (exit_with_error colors e no_color c)) = stdout c /\
     exists text,
       stderr (fst (exit_with_error colors e no_color c))
       = (stderr c ++ text ++ newline)%string) /\
  (forall msg,
     stderr (print_success colors msg no_color c) = stderr c /\
     exists text,
       stdout (print_success colors msg no_color c)
       = (stdout c ++ text ++ newline)%string) /\
  (forall m1 m2,
     print_warning colors m1 no_color c = print_warning colors m2 no_color c ->
     m1 = m2) /\
  (forall e1 e2,
     exit_with_error colors e1 no_color c = exit_with_error colors e2 no_color c ->
     e1 = e2) /\
  (forall m1 m2,
     print_success colors m1 no_color c = print_success colors m2 no_color c ->
     m1 = m2).
Proof.
  split; [intros msg; split; reflexivity|].
  split; [intros e; split; [reflexivity|];
          destruct no_color; (split; [reflexivity | eexists; reflexivity])|].
  split; [intros msg; destruct no_color;
          (split; [reflexivity | eexists; reflexivity])|].
  split; [|split].
  - intros m1 m2 H. apply (f_equal stderr) in H.
    unfold print_warning, print_stderr in H. cbn [stderr] in H.
    apply append_inv_head, append_inv_tail in H.
    eapply format_warning_inj; exact H.
  - intros e1 e2 H. apply (f_equal (fun r => stderr (fst r))) in H.
    unfold exit_with_error, print_stderr in H.
    destruct no_color; cbn [fst stderr] in H.
    + apply append_inv_head, append_inv_tail in H.
      eapply append_inv_head; exact H.
    + apply append_inv_head, append_inv_tail, append_inv_head,
        append_inv_tail in H.
      eapply append_inv_head; exact H.
  - intros m1 m2 H. apply (f_equal stdout) in H.
    unfold print_success, print in H.
    destruct no_color; cbn [stdout] in H.
    + now apply append_inv_head, append_inv_tail in H.
    + now apply append_inv_head, append_inv_tail, append_inv_head,
        append_inv_tail in H.
Qed.
